(** * A-star: the step-wise grid search of [main.c]

    A shallow embedding of the search engine of [main.c] (the grid, the
    open-node queue, the closed-node array, [a_star], [draw_path] and
    [create_barriers]) together with the properties checked against it.

    Modelling conventions.
    - C [int] values are [Z]; every coordinate the program computes lies in
      [-1 .. 40], so no wrap-around can occur and none is modelled.
    - The [double] cost fields are [Z]: every cost the program computes is a
      sum of products of small integers, exactly representable in binary64,
      so the floating-point sums and comparisons coincide with the integer
      ones.
    - A C array is a [list] of the array's length.  An index outside the
      array is undefined behaviour in C; the model reports it as
      [OutOfBounds] and stops.
    - [qsort] is specified by the C standard only up to the order of the
      entries that compare equal.  [a_star_with] takes the sorting function
      as an argument, [a_star_step] admits every conforming one, and
      [a_star] instantiates it with a stable insertion sort. *)

From Stdlib Require Import ZArith Lia Bool.
From stdpp Require Import base numbers list sorting.

Local Open Scope Z_scope.

(** ** Constants ([#define]s) *)

Definition CELL_COUNT : Z := 40.
Definition NEIGHBOURS_COUNT : Z := 8.
Definition QUEUE_SIZE : Z := CELL_COUNT * CELL_COUNT.
Definition START_X : Z := 3.
Definition START_Y : Z := 8.
Definition TARGET_X : Z := 38.
Definition TARGET_Y : Z := 38.

(** ** Data model *)

Inductive CellState_Typedef : Type :=
| CELL_EMPTY
| CELL_START
| CELL_BARRIER
| CELL_VISITED
| CELL_NEIGHBOUR
| CELL_PATH
| CELL_TARGET.

Definition state_eqb (a b : CellState_Typedef) : bool :=
  match a, b with
  | CELL_EMPTY, CELL_EMPTY | CELL_START, CELL_START
  | CELL_BARRIER, CELL_BARRIER | CELL_VISITED, CELL_VISITED
  | CELL_NEIGHBOUR, CELL_NEIGHBOUR | CELL_PATH, CELL_PATH
  | CELL_TARGET, CELL_TARGET => true
  | _, _ => false
  end.

Record CellPosition_Typedef : Type := Pos { x : Z; y : Z }.

Definition pos_eqb (p q : CellPosition_Typedef) : bool :=
  (x p =? x q) && (y p =? y q).

Global Instance CellState_eq_dec : EqDecision CellState_Typedef.
Proof. solve_decision. Defined.

Global Instance CellPosition_eq_dec : EqDecision CellPosition_Typedef.
Proof. solve_decision. Defined.

Record Cell_Typedef : Type := Cell {
  position : CellPosition_Typedef;
  h_cost : Z;
  g_cost : Z;
  cost : Z;
  state : CellState_Typedef;
  parent_position : CellPosition_Typedef
}.

Record Queue_Typedef : Type := Queue {
  cells : list Cell_Typedef;
  idx : Z
}.

Definition Grid : Type := list (list Cell_Typedef).

(** The globals of the program. *)
Record State : Type := MkState {
  grid : Grid;
  open_nodes_queue : Queue_Typedef;
  closed_nodes_count : Z;
  closed_nodes : list Cell_Typedef;
  found_target : bool
}.

(** ** Array accesses and their failure *)

Inductive array_id : Type := ARR_GRID | ARR_QUEUE | ARR_CLOSED.

Inductive result (A : Type) : Type :=
| Ok (a : A)
| OutOfBounds (arr : array_id) (i : Z).
Arguments Ok {A} a.
Arguments OutOfBounds {A} arr i.

Definition bind {A B : Type} (r : result A) (k : A -> result B) : result B :=
  match r with
  | Ok a => k a
  | OutOfBounds arr i => OutOfBounds arr i
  end.

Notation "'do' a <- e ; k" := (bind e (fun a => k))
  (at level 10, a name, e at level 100, k at level 200).

(** [arr[i]] as an rvalue. *)
Definition zlookup {A : Type} (l : list A) (i : Z) : option A :=
  if 0 <=? i then l !! Z.to_nat i else None.

(** [arr[i] = a]. *)
Definition zinsert {A : Type} (l : list A) (i : Z) (a : A) : option (list A) :=
  if (0 <=? i) && (i <? Z.of_nat (length l))
  then Some (<[Z.to_nat i := a]> l) else None.

Definition array_get {A : Type} (arr : array_id) (l : list A) (i : Z) : result A :=
  match zlookup l i with
  | Some a => Ok a
  | None => OutOfBounds arr i
  end.

Definition array_set {A : Type} (arr : array_id) (l : list A) (i : Z) (a : A)
  : result (list A) :=
  match zinsert l i a with
  | Some l' => Ok l'
  | None => OutOfBounds arr i
  end.

(** [grid[p.x][p.y]] as an rvalue. *)
Definition grid_get (gr : Grid) (p : CellPosition_Typedef) : result Cell_Typedef :=
  do row <- array_get ARR_GRID gr (x p);
  array_get ARR_GRID row (y p).

(** [grid[p.x][p.y] = c]. *)
Definition grid_set (gr : Grid) (p : CellPosition_Typedef) (c : Cell_Typedef)
  : result Grid :=
  do row <- array_get ARR_GRID gr (x p);
  do row' <- array_set ARR_GRID row (y p) c;
  array_set ARR_GRID gr (x p) row'.

Definition set_state (c : Cell_Typedef) (st : CellState_Typedef) : Cell_Typedef :=
  Cell (position c) (h_cost c) (g_cost c) (cost c) st (parent_position c).

(** [grid[p.x][p.y].state = st]. *)
Definition grid_set_state (gr : Grid) (p : CellPosition_Typedef)
    (st : CellState_Typedef) : result Grid :=
  do c <- grid_get gr p;
  grid_set gr p (set_state c st).

(** ** Queue actions *)

Definition is_full (queue : Queue_Typedef) : bool := idx queue >? QUEUE_SIZE - 1.

Definition is_empty (queue : Queue_Typedef) : bool := idx queue <? 0.

(** [queue->cells[++queue->idx] = cell], unless [is_full]. *)
Definition enqueue (queue : Queue_Typedef) (cell : Cell_Typedef)
  : result Queue_Typedef :=
  if is_full queue then Ok queue
  else
    do cells' <- array_set ARR_QUEUE (cells queue) (idx queue + 1) cell;
    Ok (Queue cells' (idx queue + 1)).

(** [pop] returns [false] ([None]) on an empty queue, and otherwise
    [queue->cells[queue->idx--]]. *)
Definition pop (queue : Queue_Typedef) : result (Queue_Typedef * option Cell_Typedef) :=
  if is_empty queue then Ok (queue, None)
  else
    do cell <- array_get ARR_QUEUE (cells queue) (idx queue);
    Ok (Queue (cells queue) (idx queue - 1), Some cell).

(** The entries a queue holds: indices [0 .. idx]. *)
Definition live (queue : Queue_Typedef) : list Cell_Typedef :=
  take (Z.to_nat (idx queue + 1)) (cells queue).

(** The records of the closed array: indices [0 .. closed_nodes_count - 1]. *)
Definition explored (s : State) : list Cell_Typedef :=
  take (Z.to_nat (closed_nodes_count s)) (closed_nodes s).

(** ** Util functions *)

Definition compare_cell_cost (qA qB : Cell_Typedef) : Z :=
  if cost qA <? cost qB then 1
  else if cost qA >? cost qB then -1
  else 0.

Definition compute_distance (x1 y1 x2 y2 : Z) : Z :=
  let dx := Z.abs (x1 - x2) in
  let dy := Z.abs (y1 - y2) in
  if dx >? dy then 14 * dy + 10 * (dx - dy)
  else 14 * dx + 10 * (dy - dx).

Definition g (x1 y1 : Z) : Z := compute_distance x1 y1 START_X START_Y.

Definition h (x1 y1 : Z) : Z := compute_distance x1 y1 TARGET_X TARGET_Y.

(** ** Path drawing *)

Definition is_sentinel (p : CellPosition_Typedef) : bool :=
  (x p =? -1) && (y p =? -1).

(** The variables of the [while] loop of [draw_path] when it is left;
    [walk_marked] lists the cells marked [CELL_PATH], one per executed
    iteration, in the order of the iterations. *)
Record Walk : Type := MkWalk {
  walk_grid : Grid;
  walk_tmp_cell : Cell_Typedef;
  walk_force_stop : Z;
  walk_marked : list CellPosition_Typedef
}.

(** The loop [while (force_stop < 1000) { ... force_stop++; }].  The first
    argument is the number [1000 - force_stop] of iterations the guard still
    allows: it is [O] exactly when [force_stop < 1000] fails. *)
Fixpoint draw_path_loop (n : nat) (gr : Grid) (tmp_cell : Cell_Typedef)
    (force_stop : Z) (marked : list CellPosition_Typedef) : result Walk :=
  match n with
  | O => Ok (MkWalk gr tmp_cell force_stop marked)
  | S n' =>
      do gr1 <- grid_set_state gr (position tmp_cell) CELL_PATH;
      do tmp_cell' <- grid_get gr1 (parent_position tmp_cell);
      let marked' := marked ++ [position tmp_cell] in
      if is_sentinel (parent_position tmp_cell')
      then Ok (MkWalk gr1 tmp_cell' force_stop marked')
      else draw_path_loop n' gr1 tmp_cell' (force_stop + 1) marked'
  end.

Definition draw_path_walk (gr : Grid) (current_cell : Cell_Typedef) : result Walk :=
  let force_stop := 0 in
  do tmp_cell <- grid_get gr (position current_cell);
  draw_path_loop (Z.to_nat (1000 - force_stop)) gr tmp_cell force_stop [].

(** [draw_path] returns nothing: its only effect is on the grid. *)
Definition draw_path (gr : Grid) (current_cell : Cell_Typedef) : result Grid :=
  do w <- draw_path_walk gr current_cell;
  Ok (walk_grid w).

(** ** The search step *)

(** The loops [for (c = 0; c < limit; c++) if (arr[c].position == p)
    { flag = true; break; }] of [a_star]: [l] is the array from index [c]
    on, and [k] counts the iterations left, [limit - c]. *)
Fixpoint scan_from (arr : array_id) (l : list Cell_Typedef)
    (p : CellPosition_Typedef) (c : Z) (k : nat) {struct k} : result bool :=
  match k with
  | O => Ok false
  | S k' =>
      match l with
      | [] => OutOfBounds arr c
      | e :: l' =>
          if pos_eqb (position e) p then Ok true
          else scan_from arr l' p (c + 1) k'
      end
  end.

(** [is_closed]: scans [closed_nodes[0 .. closed_nodes_count - 1]]. *)
Definition is_closed_scan (s : State) (neighbour : CellPosition_Typedef) : result bool :=
  scan_from ARR_CLOSED (closed_nodes s) neighbour 0 (Z.to_nat (closed_nodes_count s)).

(** [in_queue]: scans [open_nodes_queue.cells[o]] for [o < open_nodes_queue.idx]. *)
Definition in_queue_scan (queue : Queue_Typedef) (neighbour : CellPosition_Typedef)
  : result bool :=
  scan_from ARR_QUEUE (cells queue) neighbour 0 (Z.to_nat (idx queue)).

Definition neighbours (cx cy : Z) : list CellPosition_Typedef :=
  [ Pos (cx - 1) (cy - 1); Pos (cx + 1) (cy + 1);
    Pos (cx + 1) (cy - 1); Pos (cx - 1) (cy + 1);
    Pos (cx + 1) cy;       Pos (cx - 1) cy;
    Pos cx (cy - 1);       Pos cx (cy + 1) ].

Definition out_of_grid (p : CellPosition_Typedef) : bool :=
  (x p <? 0) || (x p >? CELL_COUNT - 1) || (y p <? 0) || (y p >? CELL_COUNT - 1).

(** How one round of the neighbour loop ends: it goes on to the next
    neighbour ([continue] or the end of the body) or leaves [a_star]
    ([return]). *)
Inductive flow : Type :=
| Next (s : State)
| Return (s : State).

(** The cell written to [grid[neighbour.x][neighbour.y]] on admission. *)
Definition admitted_cell (current_cell old : Cell_Typedef)
    (neighbour : CellPosition_Typedef) (neighbour_g : Z) : Cell_Typedef :=
  Cell neighbour
       (h (x neighbour) (y neighbour))
       neighbour_g
       (neighbour_g + h (x neighbour) (y neighbour))
       (if state_eqb (state old) CELL_EMPTY then CELL_NEIGHBOUR else state old)
       (Pos (x (position current_cell)) (y (position current_cell))).

Definition tentative_g (current_cell : Cell_Typedef)
    (neighbour : CellPosition_Typedef) : Z :=
  g_cost current_cell
  + compute_distance (x (position current_cell)) (y (position current_cell))
                     (x neighbour) (y neighbour).

(** The body of the neighbour loop for one neighbour. *)
Definition visit_neighbour (current_cell : Cell_Typedef) (s : State)
    (neighbour : CellPosition_Typedef) : result flow :=
  if out_of_grid neighbour then Ok (Next s)
  else
    do nc <- grid_get (grid s) neighbour;
    if state_eqb (state nc) CELL_TARGET then
      do gr' <- draw_path (grid s) current_cell;
      Ok (Return (MkState gr' (open_nodes_queue s) (closed_nodes_count s)
                          (closed_nodes s) true))
    else if state_eqb (state nc) CELL_BARRIER then Ok (Next s)
    else
      do is_closed <- is_closed_scan s neighbour;
      if is_closed then Ok (Next s)
      else
        do in_queue <- in_queue_scan (open_nodes_queue s) neighbour;
        let neighbour_g := tentative_g current_cell neighbour in
        if negb in_queue || (neighbour_g <=? g (x neighbour) (y neighbour)) then
          let nc' := admitted_cell current_cell nc neighbour neighbour_g in
          do gr' <- grid_set (grid s) neighbour nc';
          do queue' <- enqueue (open_nodes_queue s) nc';
          Ok (Next (MkState gr' queue' (closed_nodes_count s) (closed_nodes s)
                            (found_target s)))
        else Ok (Next s).

Fixpoint for_neighbours (current_cell : Cell_Typedef) (s : State)
    (ns : list CellPosition_Typedef) : result flow :=
  match ns with
  | [] => Ok (Next s)
  | neighbour :: ns' =>
      do r <- visit_neighbour current_cell s neighbour;
      match r with
      | Next s' => for_neighbours current_cell s' ns'
      | Return s' => Ok (Return s')
      end
  end.

(** [qsort(queue.cells, queue.idx + 1, sizeof(Cell_Typedef), compare_cell_cost)]
    with [sort] standing for what [qsort] does to the [idx + 1] leading
    entries. *)
Definition qsort_queue (sort : list Cell_Typedef -> list Cell_Typedef)
    (queue : Queue_Typedef) : result Queue_Typedef :=
  let n := idx queue + 1 in
  if (0 <=? n) && (n <=? Z.of_nat (length (cells queue))) then
    Ok (Queue (sort (take (Z.to_nat n) (cells queue))
               ++ drop (Z.to_nat n) (cells queue)) (idx queue))
  else OutOfBounds ARR_QUEUE (idx queue).

(** The first part of [a_star], up to the neighbour loop: the cell popped
    off the queue is recorded in [closed_nodes] and its grid cell marked
    [CELL_VISITED]; [None] when the queue is empty. *)
Definition take_current (s : State) : result (option (Cell_Typedef * State)) :=
  do popped <- pop (open_nodes_queue s);
  match popped with
  | (_, None) => Ok None
  | (queue1, Some current_cell) =>
      do closed' <- array_set ARR_CLOSED (closed_nodes s)
                              (closed_nodes_count s) current_cell;
      let cx := x (position current_cell) in
      let cy := y (position current_cell) in
      do c <- grid_get (grid s) (Pos cx cy);
      do gr1 <- (if negb (state_eqb (state c) CELL_START)
                 then grid_set_state (grid s) (Pos cx cy) CELL_VISITED
                 else Ok (grid s));
      Ok (Some (current_cell,
                MkState gr1 queue1 (closed_nodes_count s + 1) closed'
                        (found_target s)))
  end.

Definition a_star_with (sort : list Cell_Typedef -> list Cell_Typedef)
    (s : State) : result State :=
  if found_target s then Ok s
  else
    do taken <- take_current s;
    match taken with
    | None => Ok s
    | Some (current_cell, s1) =>
        let cx := x (position current_cell) in
        let cy := y (position current_cell) in
        do r <- for_neighbours current_cell s1 (neighbours cx cy);
        match r with
        | Return s2 => Ok s2
        | Next s2 =>
            do queue2 <- qsort_queue sort (open_nodes_queue s2);
            Ok (MkState (grid s2) queue2 (closed_nodes_count s2)
                        (closed_nodes s2) (found_target s2))
        end
    end.

(** What the C standard promises of [qsort] with [compare_cell_cost]: the
    result is a rearrangement of the input in which no entry is followed by
    one that compares smaller. *)
Definition sorted_by_cost (l : list Cell_Typedef) : Prop :=
  StronglySorted (λ a b, compare_cell_cost a b <= 0) l.

Definition qsort_conforming (sort : list Cell_Typedef -> list Cell_Typedef) : Prop :=
  ∀ l, sort l ≡ₚ l ∧ sorted_by_cost (sort l).

(** One call of [a_star] that returns, under any conforming [qsort]. *)
Definition a_star_step (s s' : State) : Prop :=
  ∃ sort, qsort_conforming sort ∧ a_star_with sort s = Ok s'.

(** A stable insertion sort: entries that compare equal keep their order. *)
Fixpoint insert_by_cost (c : Cell_Typedef) (l : list Cell_Typedef) : list Cell_Typedef :=
  match l with
  | [] => [c]
  | e :: l' =>
      if compare_cell_cost c e <=? 0 then c :: e :: l'
      else e :: insert_by_cost c l'
  end.

Fixpoint qsort_stable (l : list Cell_Typedef) : list Cell_Typedef :=
  match l with
  | [] => []
  | c :: l' => insert_by_cost c (qsort_stable l')
  end.

Definition a_star (s : State) : result State := a_star_with qsort_stable s.

(** ** Barriers *)

(** [create_barriers]; [rs] holds the values the successive calls of
    [rand()] return.  The loop may need any number of samples: [None] means
    that [rs] was used up before the loop was left. *)
Fixpoint create_barriers_loop (rs : list Z) (gr : Grid) (n_created n_barriers : Z)
  : option (result Grid) :=
  if n_created <? n_barriers then
    match rs with
    | r1 :: r2 :: rs' =>
        let rand_x := Z.rem r1 CELL_COUNT in
        let rand_y := Z.rem r2 CELL_COUNT in
        match grid_get gr (Pos rand_x rand_y) with
        | Ok c =>
            if negb (state_eqb (state c) CELL_START)
               && negb (state_eqb (state c) CELL_TARGET)
            then
              match grid_set_state gr (Pos rand_x rand_y) CELL_BARRIER with
              | Ok gr' => create_barriers_loop rs' gr' (n_created + 1) n_barriers
              | OutOfBounds arr i => Some (OutOfBounds arr i)
              end
            else create_barriers_loop rs' gr n_created n_barriers
        | OutOfBounds arr i => Some (OutOfBounds arr i)
        end
    | _ => None
    end
  else Some (Ok gr).

Definition create_barriers (n_barriers : Z) (rs : list Z) (gr : Grid)
  : option (result Grid) :=
  create_barriers_loop rs gr 0 n_barriers.

(** ** Program start *)

Definition zero_cell : Cell_Typedef := Cell (Pos 0 0) 0 0 0 CELL_EMPTY (Pos 0 0).

(** The globals as the C start-up code leaves them. *)
Definition initial_grid : Grid :=
  replicate (Z.to_nat CELL_COUNT) (replicate (Z.to_nat CELL_COUNT) zero_cell).

Definition initial_state : State :=
  MkState initial_grid
          (Queue (replicate (Z.to_nat QUEUE_SIZE) zero_cell) (-1))
          0
          (replicate (Z.to_nat QUEUE_SIZE) zero_cell)
          false.

Definition start_position : CellPosition_Typedef := Pos START_X START_Y.
Definition target_position : CellPosition_Typedef := Pos TARGET_X TARGET_Y.

Definition start_cell : Cell_Typedef :=
  Cell start_position
       (h START_X START_Y)
       (g START_X START_Y)
       (g START_X START_Y + h START_X START_Y)
       CELL_START
       (Pos (-1) (-1)).

(** The start and end cell set-up of [main], before [create_barriers]. *)
Definition main_cells (s : State) : result State :=
  do gr1 <- grid_set (grid s) start_position start_cell;
  do queue1 <- enqueue (open_nodes_queue s) start_cell;
  do t <- grid_get gr1 target_position;
  do gr2 <- grid_set gr1 target_position
              (Cell target_position (h_cost t) (g_cost t) (cost t) CELL_TARGET
                    (parent_position t));
  Ok (MkState gr2 queue1 (closed_nodes_count s) (closed_nodes s) (found_target s)).

(** [main] up to its loop: the state in which the first [a_star] runs. *)
Definition main_setup (rs : list Z) : option (result State) :=
  match main_cells initial_state with
  | Ok s =>
      match create_barriers 1000 rs (grid s) with
      | Some (Ok gr) =>
          Some (Ok (MkState gr (open_nodes_queue s) (closed_nodes_count s)
                            (closed_nodes s) (found_target s)))
      | Some (OutOfBounds arr i) => Some (OutOfBounds arr i)
      | None => None
      end
  | OutOfBounds arr i => Some (OutOfBounds arr i)
  end.

(** The states the program can be in between two calls of [a_star]. *)
Inductive reachable : State -> Prop :=
| reachable_seeded rs s :
    main_setup rs = Some (Ok s) -> reachable s
| reachable_step s s' :
    reachable s -> a_star_step s s' -> reachable s'.

(** [n] calls of [a_star] in a row. *)
Fixpoint run (n : nat) (s : State) : result State :=
  match n with
  | O => Ok s
  | S n' => do s' <- a_star s; run n' s'
  end.

(** The state [n] calls of [a_star] after [main] has set up the grid with the
    [rand()] values [rs]. *)
Definition state_after (rs : list Z) (n : nat) : option State :=
  match main_setup rs with
  | Some (Ok s) =>
      match run n s with
      | Ok s' => Some s'
      | OutOfBounds _ _ => None
      end
  | _ => None
  end.

(** ** Example inputs *)

(** [rand()] values that wall the start in with two free cells, [(4,8)] and
    [(3,7)]: the twelve barriers are the other neighbours of the start, of
    [(4,8)] and of [(3,7)]; the remaining samples hit the last one again. *)
Definition pocket_rands : list Z :=
  [2;7; 4;9; 4;7; 2;9; 2;8; 3;9; 5;9; 5;7; 5;8; 2;6; 4;6; 3;6]
  ++ concat (replicate 988 [3; 6]).

(** [rand()] values that put a barrier on each of the eight neighbours of
    the target; the remaining samples hit the last one, [(39,39)], again. *)
Definition wall_rands : list Z :=
  [37;37; 37;38; 37;39; 38;37; 38;39; 39;37; 39;38; 39;39]
  ++ replicate 1984 39.

(** A queue whose [QUEUE_SIZE] slots are all in use. *)
Definition full_queue : Queue_Typedef :=
  Queue (replicate (Z.to_nat QUEUE_SIZE) zero_cell) (QUEUE_SIZE - 1).

(** The number of cells of a grid in state [CELL_BARRIER]. *)
Definition count_barriers (gr : Grid) : nat :=
  length (List.filter (λ c, state_eqb (state c) CELL_BARRIER) (concat gr)).

(** The cell at [p] is marked as part of the path. *)
Definition is_path (gr : Grid) (p : CellPosition_Typedef) : Prop :=
  ∃ c, grid_get gr p = Ok c ∧ state c = CELL_PATH.

(** The neighbour [(3,7)] of [(4,8)] as the grid holds it after the first
    call of [a_star] with the barriers of [pocket_rands], and as the second
    call rewrites it. *)
Definition cell_3_7_first : Cell_Typedef :=
  Cell (Pos 3 7) 474 10 484 CELL_NEIGHBOUR (Pos 3 8).
Definition cell_3_7_second : Cell_Typedef :=
  Cell (Pos 3 7) 474 24 498 CELL_NEIGHBOUR (Pos 4 8).

(** The grid after the first call of [a_star] with the barriers of
    [pocket_rands], the cell [(4,8)] popped by the second call, and the walk
    of [draw_path] from that cell. *)
Definition pocket_grid : Grid :=
  match state_after pocket_rands 1 with
  | Some s => grid s
  | None => []
  end.
Definition cell_4_8 : Cell_Typedef :=
  Cell (Pos 4 8) 460 10 470 CELL_NEIGHBOUR (Pos 3 8).
Definition pocket_walk : Walk :=
  match draw_path_walk pocket_grid cell_4_8 with
  | Ok w => w
  | OutOfBounds _ _ => MkWalk [] zero_cell 0 []
  end.

(** ** The invariant of the search *)

Definition closed_positions (s : State) : list CellPosition_Typedef :=
  position <$> explored s.

(** The start cell is as [main] wrote it, as far as the walk of [draw_path]
    depends on it. *)
Definition start_intact (gr : Grid) : Prop :=
  ∃ c, grid_get gr start_position = Ok c
       ∧ state c = CELL_START
       ∧ position c = start_position
       ∧ parent_position c = Pos (-1) (-1).

Definition start_kept (gr : Grid) : Prop :=
  ∃ c, grid_get gr start_position = Ok c ∧ state c = CELL_START.

Definition target_kept (gr : Grid) : Prop :=
  ∃ c, grid_get gr target_position = Ok c ∧ state c = CELL_TARGET.

Definition only_target (gr : Grid) : Prop :=
  ∀ p c, grid_get gr p = Ok c → state c = CELL_TARGET → p = target_position.

(** A coordinate the search has taken up: not the target, its grid cell
    carries its own coordinate, and, unless it is the start, its parent is a
    coordinate of the closed array. *)
Definition admitted (gr : Grid) (closed : list CellPosition_Typedef)
    (p : CellPosition_Typedef) : Prop :=
  p ≠ target_position
  ∧ ∃ c, grid_get gr p = Ok c
         ∧ position c = p
         ∧ (p = start_position ∨ parent_position c ∈ closed).

Record search_inv (s : State) : Prop := SearchInv {
  inv_start : start_intact (grid s);
  inv_target : target_kept (grid s);
  inv_only_target : only_target (grid s);
  inv_closed : ∀ p, p ∈ closed_positions s →
                    admitted (grid s) (closed_positions s) p;
  inv_queue : ∀ e, e ∈ live (open_nodes_queue s) →
                   admitted (grid s) (closed_positions s) (position e);
  inv_seed : start_position ∈ closed_positions s
             ∨ (closed_positions s = []
                ∧ position <$> live (open_nodes_queue s) = [start_position])
}.

(** The invariant inside the neighbour loop of a call that has popped
    [current_cell]. *)
Definition loop_inv (current_cell : Cell_Typedef) (s : State) : Prop :=
  search_inv s
  ∧ found_target s = false
  ∧ position current_cell ∈ closed_positions s
  ∧ start_position ∈ closed_positions s.

Definition adjacent (p q : CellPosition_Typedef) : Prop :=
  Z.abs (x p - x q) <= 1 ∧ Z.abs (y p - y q) <= 1.

(** What holds between two calls of [a_star]: the start and the target cell
    have their state and, until the target is found, the search invariant
    holds and the queue is in the order [qsort] left it in. *)
Definition reach_inv (s : State) : Prop :=
  (start_kept (grid s) ∧ target_kept (grid s))
  ∧ (found_target s = false →
     search_inv s ∧ sorted_by_cost (live (open_nodes_queue s))).

(** ** More example inputs *)

(** [rand()] returning 0 throughout: one barrier, at [(0,0)]. *)
Definition open_rands : list Z := replicate 2000 0.

(** The state 35 calls of [a_star] after that set-up: the target is found and
    the path drawn. *)
Definition found_state : State :=
  match state_after open_rands 35 with
  | Some s => s
  | None => initial_state
  end.

(** The queue after the first call of [a_star] with the barriers of
    [pocket_rands]. *)
Definition pocket_queue : Queue_Typedef :=
  match state_after pocket_rands 1 with
  | Some s => open_nodes_queue s
  | None => Queue [] (-1)
  end.

(** ** Drawing: the colour of a cell *)

(** The draw colour of the SDL renderer, as [SDL_SetRenderDrawColor] sets
    it: red, green, blue, alpha. *)
Record Colour : Type := MkColour { red : Z; green : Z; blue : Z; alpha : Z }.

(** The [switch] of [set_cell_colour].  The seven [case]s cover the
    enumeration, so its [default] branch has no counterpart here. *)
Definition state_colour (st : CellState_Typedef) : Colour :=
  match st with
  | CELL_EMPTY => MkColour 255 255 255 255
  | CELL_START => MkColour 0 0 255 255
  | CELL_BARRIER => MkColour 0 0 0 255
  | CELL_PATH => MkColour 255 50 0 255
  | CELL_VISITED => MkColour 0 180 0 255
  | CELL_NEIGHBOUR => MkColour 255 234 0 255
  | CELL_TARGET => MkColour 255 0 0 255
  end.

(** [set_cell_colour]: the returned flag and the draw colour of the renderer
    afterwards. *)
Definition set_cell_colour (gr : Grid) (renderer : Colour) (cx cy : Z)
  : result (bool * Colour) :=
  if (cx <? 0) || (cx >? CELL_COUNT - 1) || (cy <? 0) || (cy >? CELL_COUNT - 1)
  then Ok (false, renderer)
  else
    do c <- grid_get gr (Pos cx cy);
    Ok (true, state_colour (state c)).

(** A grid of [CELL_COUNT] rows of [CELL_COUNT] cells, as declared. *)
Definition grid_shape (gr : Grid) : Prop :=
  length gr = Z.to_nat CELL_COUNT
  ∧ Forall (λ row, length row = Z.to_nat CELL_COUNT) gr.

(** ** Example inputs for the further properties *)

(** [pocket_queue] with the cell [(4,8)] enqueued once more. *)
Definition pocket_queue_pushed : Queue_Typedef :=
  match enqueue pocket_queue cell_4_8 with
  | Ok q => q
  | OutOfBounds _ _ => pocket_queue
  end.

(** The state five calls of [a_star] after the set-up with the barriers of
    [pocket_rands]: the queue is empty and the target not found. *)
Definition exhausted_state : State :=
  match state_after pocket_rands 5 with
  | Some s => s
  | None => initial_state
  end.

(** The states one and two calls of [a_star] after the set-up with the
    barriers of [pocket_rands]. *)
Definition pocket_state_1 : State :=
  match state_after pocket_rands 1 with
  | Some s => s
  | None => initial_state
  end.

Definition pocket_state_2 : State :=
  match state_after pocket_rands 2 with
  | Some s => s
  | None => initial_state
  end.

(** The state a round of the neighbour loop, or a whole loop, ends in. *)
Definition flow_state (r : flow) : State :=
  match r with
  | Next s => s
  | Return s => s
  end.

(** ** Bookkeeping invariants of the search *)

(** What every entry of the queue and every record of the closed array
    satisfies: its coordinate is inside the grid, its [h_cost] is the
    heuristic at that coordinate, its [cost] the sum of [g_cost] and
    [h_cost], and its [g_cost] at least the straight-line start distance. *)
Definition entry_ok (e : Cell_Typedef) : Prop :=
  out_of_grid (position e) = false
  ∧ h_cost e = h (x (position e)) (y (position e))
  ∧ cost e = g_cost e + h_cost e
  ∧ g (x (position e)) (y (position e)) <= g_cost e.

(** The arrays have their declared sizes and the counters stay inside
    them. *)
Definition arrays_inv (s : State) : Prop :=
  length (cells (open_nodes_queue s)) = Z.to_nat QUEUE_SIZE
  ∧ -1 <= idx (open_nodes_queue s) < QUEUE_SIZE
  ∧ length (closed_nodes s) = Z.to_nat QUEUE_SIZE
  ∧ 0 <= closed_nodes_count s <= QUEUE_SIZE
  ∧ grid_shape (grid s)
  ∧ Forall entry_ok (live (open_nodes_queue s))
  ∧ Forall entry_ok (explored s).

(** ** Barriers and the path *)

(** The cell at [p], if there is one, is not a barrier. *)
Definition off_barrier (gr : Grid) (p : CellPosition_Typedef) : Prop :=
  ∀ c, grid_get gr p = Ok c → state c ≠ CELL_BARRIER.

(** Two grids have the same barrier cells. *)
Definition barriers_same (gr gr' : Grid) : Prop :=
  ∀ p c, state c = CELL_BARRIER → (grid_get gr p = Ok c ↔ grid_get gr' p = Ok c).

(** No queue entry and no closed record lies on a barrier. *)
Definition barrier_inv (s : State) : Prop :=
  (∀ e, e ∈ live (open_nodes_queue s) → off_barrier (grid s) (position e))
  ∧ (∀ e, e ∈ explored s → off_barrier (grid s) (position e)).

(** No cell is marked as path. *)
Definition no_path (gr : Grid) : Prop :=
  ∀ p c, grid_get gr p = Ok c → state c ≠ CELL_PATH.

(** What holds once the target is found: the last closed record is next to
    the target and its cell is on the path, and the path runs over closed
    coordinates only. *)
Definition found_inv (s : State) : Prop :=
  (∃ l current_cell,
      explored s = l ++ [current_cell]
      ∧ adjacent (position current_cell) target_position
      ∧ is_path (grid s) (position current_cell))
  ∧ ∀ p, is_path (grid s) p → p ∈ closed_positions s.

(** The invariant about barriers and the path. *)
Definition path_inv (s : State) : Prop :=
  barrier_inv s
  ∧ (found_target s = false → no_path (grid s))
  ∧ (found_target s = true → found_inv s).

(** The invariant about barriers and the path inside the neighbour loop of
    the call that started in [s] and popped [current_cell]. *)
Definition path_loop_inv (s : State) (current_cell : Cell_Typedef)
    (s1 : State) : Prop :=
  loop_inv current_cell s1
  ∧ barrier_inv s1
  ∧ no_path (grid s1)
  ∧ barriers_same (grid s) (grid s1)
  ∧ ∃ l, explored s1 = l ++ [current_cell].

(** The target cell as [main] leaves it. *)
Definition target_cell : Cell_Typedef :=
  Cell target_position 0 0 0 CELL_TARGET (Pos 0 0).

(** The state in which [main] enters its loop, with the barriers of
    [pocket_rands]. *)
Definition seeded_state : State :=
  match state_after pocket_rands 0 with
  | Some s => s
  | None => initial_state
  end.

(** The grid [main] passes to [create_barriers], and that grid after
    [create_barriers(2)] with [rand()] returning 5, 6, 5, 6. *)
Definition seeded_grid : Grid :=
  match main_cells initial_state with
  | Ok s => grid s
  | OutOfBounds _ _ => initial_grid
  end.

Definition two_barriers_grid : Grid :=
  match create_barriers 2 [5; 6; 5; 6] seeded_grid with
  | Some (Ok gr) => gr
  | _ => initial_grid
  end.

(** ** Drawing the cells *)

Definition WINDOW_SIZE : Z := 720.
Definition CELL_SIZE : Z := WINDOW_SIZE / CELL_COUNT.

Record SDL_Rect : Type := MkRect { rect_x : Z; rect_y : Z; rect_w : Z; rect_h : Z }.

(** The rectangle [draw_cells] fills for the cell at [(cx, cy)]. *)
Definition cell_rect (cx cy : Z) : SDL_Rect :=
  MkRect (cx * CELL_SIZE) (cy * CELL_SIZE) CELL_SIZE CELL_SIZE.

(** The inner loop of [draw_cells], over [y] for one [x]: the rectangles
    handed to [SDL_RenderFillRect], each with the draw colour the renderer
    has at that call, and the draw colour left behind.  The flag
    [set_cell_colour] returns is not looked at. *)
Fixpoint draw_cells_column (gr : Grid) (cx : Z) (ys : list Z) (renderer : Colour)
  : result (list (SDL_Rect * Colour) * Colour) :=
  match ys with
  | [] => Ok ([], renderer)
  | cy :: ys' =>
      let cell := cell_rect cx cy in
      do set <- set_cell_colour gr renderer cx cy;
      do rest <- draw_cells_column gr cx ys' (snd set);
      Ok ((cell, snd set) :: fst rest, snd rest)
  end.

(** The outer loop of [draw_cells], over [x]. *)
Fixpoint draw_cells_columns (gr : Grid) (xs : list Z) (renderer : Colour)
  : result (list (SDL_Rect * Colour) * Colour) :=
  match xs with
  | [] => Ok ([], renderer)
  | cx :: xs' =>
      do column <- draw_cells_column gr cx (seqZ 0 CELL_COUNT) renderer;
      do rest <- draw_cells_columns gr xs' (snd column);
      Ok (fst column ++ fst rest, snd rest)
  end.

Definition draw_cells (gr : Grid) (renderer : Colour)
  : result (list (SDL_Rect * Colour) * Colour) :=
  draw_cells_columns gr (seqZ 0 CELL_COUNT) renderer.

(** The coordinates of the grid in the order [draw_cells] visits them. *)
Definition all_cells : list CellPosition_Typedef :=
  concat ((λ cx, Pos cx <$> seqZ 0 CELL_COUNT) <$> seqZ 0 CELL_COUNT).

(** The rectangle filled for the cell at [p] has the colour of that cell's
    state. *)
Definition paints (gr : Grid) (p : CellPosition_Typedef)
    (op : SDL_Rect * Colour) : Prop :=
  ∃ c, grid_get gr p = Ok c
       ∧ op = (cell_rect (x p) (y p), state_colour (state c)).

(** * Properties *)

(** ** The error monad and the arrays *)

Lemma bind_Ok_inv {A B : Type} (r : result A) (k : A -> result B) (b : B) :
  bind r k = Ok b → ∃ a, r = Ok a ∧ k a = Ok b.
Proof. destruct r as [a|arr i]; simpl; [eauto | discriminate]. Qed.

Ltac inv_bind H :=
  let a := fresh "v" in
  let Ha := fresh "E" in
  apply bind_Ok_inv in H as (a & Ha & H).

Tactic Notation "inv_bind_as" hyp(H) ident(a) ident(Ha) :=
  apply bind_Ok_inv in H as (a & Ha & H).

Lemma zlookup_Some {A : Type} (l : list A) (i : Z) (a : A) :
  zlookup l i = Some a ↔ 0 <= i ∧ l !! Z.to_nat i = Some a.
Proof.
  unfold zlookup. destruct (Z.leb_spec 0 i).
  - split; [intros ->; done | intros [_ ->]; done].
  - split; [discriminate | lia].
Qed.

Lemma zinsert_Some {A : Type} (l l' : list A) (i : Z) (a : A) :
  zinsert l i a = Some l' ↔
  0 <= i < Z.of_nat (length l) ∧ l' = <[Z.to_nat i := a]> l.
Proof.
  unfold zinsert.
  destruct (Z.leb_spec 0 i), (Z.ltb_spec i (Z.of_nat (length l))); simpl;
    split; try discriminate; try lia.
  - intros [= <-]. done.
  - intros [_ ->]. done.
Qed.

Lemma array_get_Ok {A : Type} arr (l : list A) (i : Z) (a : A) :
  array_get arr l i = Ok a ↔ 0 <= i ∧ l !! Z.to_nat i = Some a.
Proof.
  unfold array_get. rewrite <- zlookup_Some.
  destruct (zlookup l i); split; intros; simplify_eq; done.
Qed.

Lemma array_set_Ok {A : Type} arr (l l' : list A) (i : Z) (a : A) :
  array_set arr l i a = Ok l' ↔
  0 <= i < Z.of_nat (length l) ∧ l' = <[Z.to_nat i := a]> l.
Proof.
  unfold array_set. rewrite <- zinsert_Some.
  destruct (zinsert l i a); split; intros; simplify_eq; done.
Qed.

Lemma pos_eqb_eq (p q : CellPosition_Typedef) : pos_eqb p q = true ↔ p = q.
Proof.
  unfold pos_eqb. destruct p as [px py], q as [qx qy]; simpl.
  rewrite andb_true_iff, !Z.eqb_eq. split; [intros []; congruence | ].
  intros [= -> ->]; done.
Qed.

Lemma pos_eqb_neq (p q : CellPosition_Typedef) : pos_eqb p q = false ↔ p ≠ q.
Proof. rewrite <- pos_eqb_eq. destruct (pos_eqb p q); naive_solver. Qed.

Lemma state_eqb_eq (a b : CellState_Typedef) : state_eqb a b = true ↔ a = b.
Proof. destruct a, b; simpl; split; congruence. Qed.

Lemma state_eqb_neq (a b : CellState_Typedef) : state_eqb a b = false ↔ a ≠ b.
Proof. rewrite <- state_eqb_eq. destruct (state_eqb a b); naive_solver. Qed.

Lemma array_get_set_eq {A : Type} arr arr' (l l' : list A) (i : Z) (a : A) :
  array_set arr l i a = Ok l' → array_get arr' l' i = Ok a.
Proof.
  intros [Hi ->]%array_set_Ok. apply array_get_Ok. split; [lia | ].
  apply list_lookup_insert_eq. lia.
Qed.

Lemma array_get_set_ne {A : Type} arr arr' (l l' : list A) (i j : Z) (a : A) :
  array_set arr l i a = Ok l' → j ≠ i → array_get arr' l' j = array_get arr' l j.
Proof.
  intros [Hi ->]%array_set_Ok Hne. unfold array_get, zlookup.
  destruct (Z.leb_spec 0 j); [ | done].
  rewrite list_lookup_insert_ne by lia. done.
Qed.

(** ** The grid *)

Lemma grid_get_set_eq (gr gr' : Grid) p c :
  grid_set gr p c = Ok gr' → grid_get gr' p = Ok c.
Proof.
  unfold grid_set, grid_get. intros H.
  inv_bind H. inv_bind H.
  rewrite (array_get_set_eq _ _ _ _ _ _ H). simpl.
  by eapply array_get_set_eq.
Qed.

Lemma grid_get_set_ne (gr gr' : Grid) p q c :
  grid_set gr p c = Ok gr' → q ≠ p → grid_get gr' q = grid_get gr q.
Proof.
  unfold grid_set, grid_get. intros H Hne.
  inv_bind H. inv_bind H.
  destruct (decide (x q = x p)) as [Hxq | Hxq].
  - rewrite Hxq, (array_get_set_eq _ _ _ _ _ _ H), E. simpl.
    eapply array_get_set_ne; [done | ].
    intros Heq. apply Hne. destruct p, q; simpl in *. congruence.
  - by rewrite (array_get_set_ne _ _ _ _ _ _ _ H Hxq).
Qed.

Lemma grid_set_state_get_eq (gr gr' : Grid) p st :
  grid_set_state gr p st = Ok gr' →
  ∃ c, grid_get gr p = Ok c ∧ grid_get gr' p = Ok (set_state c st).
Proof.
  unfold grid_set_state. intros H. inv_bind H.
  exists v. split; [done | ]. by eapply grid_get_set_eq.
Qed.

Lemma grid_set_state_get_ne (gr gr' : Grid) p q st :
  grid_set_state gr p st = Ok gr' → q ≠ p → grid_get gr' q = grid_get gr q.
Proof.
  unfold grid_set_state. intros H Hne. inv_bind H.
  by eapply grid_get_set_ne.
Qed.

(** ** The queue *)

Lemma compare_cell_cost_le0 (a b : Cell_Typedef) :
  compare_cell_cost a b <= 0 ↔ cost b <= cost a.
Proof.
  unfold compare_cell_cost.
  destruct (Z.ltb_spec (cost a) (cost b)); [lia | ].
  destruct (Z.gtb_spec (cost a) (cost b)); lia.
Qed.

Lemma live_snoc (cs : list Cell_Typedef) (i : Z) (c : Cell_Typedef) :
  0 <= i → cs !! Z.to_nat i = Some c →
  live (Queue cs i) = live (Queue cs (i - 1)) ++ [c].
Proof.
  intros Hi Hc. unfold live; simpl.
  replace (Z.to_nat (i + 1)) with (S (Z.to_nat i)) by lia.
  replace (i - 1 + 1) with i by lia.
  by apply take_S_r.
Qed.

Lemma pop_Some (q q' : Queue_Typedef) (c : Cell_Typedef) :
  pop q = Ok (q', Some c) →
  0 <= idx q ∧ q' = Queue (cells q) (idx q - 1)
  ∧ cells q !! Z.to_nat (idx q) = Some c ∧ live q = live q' ++ [c].
Proof.
  unfold pop, is_empty. destruct (Z.ltb_spec (idx q) 0); [discriminate | ].
  intros H'. inv_bind H'. injection H' as <- <-.
  apply array_get_Ok in E as [_ Hc].
  repeat split; try done.
  destruct q as [cs i]; simpl in *. by apply live_snoc.
Qed.

Lemma pop_None (q q' : Queue_Typedef) :
  pop q = Ok (q', None) → idx q < 0 ∧ q' = q.
Proof.
  unfold pop, is_empty. destruct (Z.ltb_spec (idx q) 0).
  - intros [= <-]. done.
  - intros H'. inv_bind H'. discriminate.
Qed.

Lemma enqueue_Ok (q q' : Queue_Typedef) (c : Cell_Typedef) :
  enqueue q c = Ok q' →
  (is_full q = true ∧ q' = q)
  ∨ (is_full q = false ∧ -1 <= idx q ∧ idx q + 1 < Z.of_nat (length (cells q))
     ∧ q' = Queue (<[Z.to_nat (idx q + 1) := c]> (cells q)) (idx q + 1)
     ∧ live q' = live q ++ [c]).
Proof.
  unfold enqueue. destruct (is_full q); [intros [= <-]; by left | right].
  inv_bind H. injection H as <-.
  apply array_set_Ok in E as [Hi ->].
  repeat split; try done; try lia.
  unfold live; simpl.
  replace (Z.to_nat (idx q + 1 + 1)) with (S (Z.to_nat (idx q + 1))) by lia.
  erewrite take_S_r by (apply list_lookup_insert_eq; lia).
  by rewrite take_insert_ge.
Qed.

(** ** C9: a found target freezes the search *)

(** C9.  Once [found_target] is set, a call of [a_star] changes nothing:
    the state it returns (grid, queue, closed array and flag) is the state
    it was called in, whatever [qsort] implementation is linked. *)
Theorem a_star_found_noop (s : State) :
  found_target s = true →
  a_star s = Ok s ∧ ∀ s', a_star_step s s' → s' = s.
Proof.
  intros Hf. split.
  - unfold a_star, a_star_with. by rewrite Hf.
  - intros s' (sort & _ & Hs). unfold a_star_with in Hs.
    rewrite Hf in Hs. by injection Hs.
Qed.

(** [a_star_found_noop] in the state in which the search on the open grid
    has found the target. *)
Lemma a_star_found_noop_witness :
  a_star found_state = Ok found_state
  ∧ ∀ s', a_star_step found_state s' → s' = found_state.
Proof.
  apply (a_star_found_noop found_state). vm_compute. reflexivity.
Defined.

(** ** C7: the popped entry is the cheapest *)

(** C7.  When the entries of a non-empty queue are in the order [qsort]
    leaves them in (no entry followed by one that compares smaller under
    [compare_cell_cost]), [pop] returns the entry at the top index, removes
    it (the remaining entries are the ones below it), and no entry of the
    queue has a smaller [cost]. *)
Theorem pop_returns_cheapest (q : Queue_Typedef) :
  sorted_by_cost (live q) →
  is_empty q = false →
  idx q < Z.of_nat (length (cells q)) →
  ∃ c, pop q = Ok (Queue (cells q) (idx q - 1), Some c)
       ∧ live q = live (Queue (cells q) (idx q - 1)) ++ [c]
       ∧ ∀ e, e ∈ live q → cost c <= cost e.
Proof.
  intros Hsorted Hne Hlen.
  unfold is_empty in Hne. apply Z.ltb_ge in Hne.
  destruct (lookup_lt_is_Some_2 (cells q) (Z.to_nat (idx q))) as [c Hc]; [lia | ].
  assert (Hpop : pop q = Ok (Queue (cells q) (idx q - 1), Some c)).
  { unfold pop, is_empty. destruct (Z.ltb_spec (idx q) 0); [lia | ].
    assert (array_get ARR_QUEUE (cells q) (idx q) = Ok c) as ->; [ | done].
    by apply array_get_Ok. }
  exists c. split; [done | ].
  apply pop_Some in Hpop as (_ & _ & _ & Hlive). simpl in Hlive.
  split; [done | ].
  intros e He. rewrite Hlive in He, Hsorted.
  apply elem_of_app in He as [He | He].
  - apply compare_cell_cost_le0.
    eapply (StronglySorted_app_1_elem_of
              (λ a b, compare_cell_cost a b <= 0)); [exact Hsorted | done | ].
    by apply list_elem_of_singleton.
  - apply list_elem_of_singleton in He as ->. lia.
Qed.

(** [pop_returns_cheapest] on the queue the second call of [a_star] pops
    from: entries [(3,7)] (cost 484) and [(4,8)] (cost 470). *)
Lemma pop_returns_cheapest_witness :
  ∃ c, pop pocket_queue = Ok (Queue (cells pocket_queue) (idx pocket_queue - 1), Some c)
       ∧ live pocket_queue
         = live (Queue (cells pocket_queue) (idx pocket_queue - 1)) ++ [c]
       ∧ ∀ e, e ∈ live pocket_queue → cost c <= cost e.
Proof.
  apply (pop_returns_cheapest pocket_queue).
  - apply (bool_decide_unpack _). vm_compute. exact I.
  - vm_compute. reflexivity.
  - vm_compute. reflexivity.
Defined.

(** ** The stable sort conforms to [qsort] *)

Lemma insert_by_cost_perm (c : Cell_Typedef) (l : list Cell_Typedef) :
  insert_by_cost c l ≡ₚ c :: l.
Proof.
  induction l as [ | e l IH]; simpl; [done | ].
  destruct (compare_cell_cost c e <=? 0); [done | ].
  rewrite IH. apply Permutation_swap.
Qed.

Lemma insert_by_cost_sorted (c : Cell_Typedef) (l : list Cell_Typedef) :
  sorted_by_cost l → sorted_by_cost (insert_by_cost c l).
Proof.
  unfold sorted_by_cost.
  induction l as [ | e l IH]; simpl; intros Hs.
  - repeat constructor.
  - apply StronglySorted_inv in Hs as [Hl He].
    destruct (Z.leb_spec (compare_cell_cost c e) 0) as [Hce | Hce].
    + constructor; [by constructor | ].
      constructor; [done | ].
      eapply Forall_impl; [exact He | ].
      intros b Hb. simpl in Hb.
      apply compare_cell_cost_le0 in Hb, Hce.
      apply compare_cell_cost_le0. lia.
    + constructor; [by apply IH | ].
      rewrite insert_by_cost_perm. constructor; [ | done].
      apply compare_cell_cost_le0.
      assert (¬ cost e <= cost c) by (by rewrite <- compare_cell_cost_le0; lia).
      lia.
Qed.

Lemma qsort_stable_conforming : qsort_conforming qsort_stable.
Proof.
  intros l. induction l as [ | c l [IHp IHs]]; simpl.
  - split; [done | constructor].
  - split.
    + by rewrite insert_by_cost_perm, IHp.
    + by apply insert_by_cost_sorted.
Qed.

Lemma a_star_is_step (s s' : State) : a_star s = Ok s' → a_star_step s s'.
Proof. intros H. exists qsort_stable. split; [apply qsort_stable_conforming | done]. Qed.

Lemma run_reachable (n : nat) (s s' : State) :
  reachable s → run n s = Ok s' → reachable s'.
Proof.
  revert s. induction n as [ | n IH]; simpl; intros s Hr Hrun.
  - by injection Hrun as <-.
  - inv_bind Hrun. eapply IH; [ | done].
    eapply reachable_step; [done | by apply a_star_is_step].
Qed.

Lemma state_after_reachable (rs : list Z) (n : nat) (s : State) :
  state_after rs n = Some s → reachable s.
Proof.
  unfold state_after.
  destruct (main_setup rs) as [[s0 | ] | ] eqn:Hs0; try discriminate.
  destruct (run n s0) as [s1 | ] eqn:Hrun; try discriminate.
  intros [= <-]. eapply run_reachable; [ | done].
  by eapply reachable_seeded.
Qed.

(** ** C5: the capacity check of [enqueue] *)

(** C5.  [is_full] answers [false] for the queue whose top index is
    [QUEUE_SIZE - 1], that is, whose [QUEUE_SIZE] slots are all in use; so
    [enqueue] does not reject the entry but stores it at index
    [QUEUE_SIZE], one past the end of [cells]. *)
Theorem enqueue_at_capacity_overruns :
  Z.of_nat (length (live full_queue)) = QUEUE_SIZE
  ∧ is_full full_queue = false
  ∧ enqueue full_queue zero_cell = OutOfBounds ARR_QUEUE QUEUE_SIZE.
Proof. vm_compute. done. Qed.

(** What [enqueue] does in general: it rejects the entry only from top index
    [QUEUE_SIZE] on, and otherwise writes index [idx + 1], which lies in the
    array only while [idx + 1 < QUEUE_SIZE]. *)
Lemma enqueue_cases (q : Queue_Typedef) (c : Cell_Typedef) :
  length (cells q) = Z.to_nat QUEUE_SIZE →
  -1 <= idx q →
  (idx q < QUEUE_SIZE - 1 ∧
   enqueue q c = Ok (Queue (<[Z.to_nat (idx q + 1) := c]> (cells q)) (idx q + 1)))
  ∨ (idx q = QUEUE_SIZE - 1 ∧ enqueue q c = OutOfBounds ARR_QUEUE QUEUE_SIZE)
  ∨ (QUEUE_SIZE <= idx q ∧ enqueue q c = Ok q).
Proof.
  intros Hlen Hidx. unfold enqueue, is_full.
  destruct (Z.gtb_spec (idx q) (QUEUE_SIZE - 1)) as [Hfull | Hfull].
  { right; right. split; [lia | done]. }
  unfold array_set, zinsert. rewrite Hlen.
  destruct (Z.leb_spec 0 (idx q + 1)); [ | lia].
  destruct (Z.ltb_spec (idx q + 1) (Z.of_nat (Z.to_nat QUEUE_SIZE))) as [Hin | Hin];
    simpl.
  - left. split; [ | done]. unfold QUEUE_SIZE, CELL_COUNT in *. lia.
  - right; left.
    assert (idx q = QUEUE_SIZE - 1) as -> by (unfold QUEUE_SIZE, CELL_COUNT in *; lia).
    split; [done | ]. by replace (QUEUE_SIZE - 1 + 1) with QUEUE_SIZE by lia.
Qed.

(** ** C6: the barrier generator *)

(** C6.  Asked for two barriers on the grid [main] has prepared, with
    [rand()] returning 0 four times, [create_barriers] returns after two
    rounds: both rounds hit cell [(0,0)], both count as a created barrier,
    and the grid holds one barrier cell, not two. *)
Theorem create_barriers_counts_repeats :
  ∃ s gr,
    main_cells initial_state = Ok s
    ∧ count_barriers (grid s) = 0%nat
    ∧ create_barriers 2 [0; 0; 0; 0] (grid s) = Some (Ok gr)
    ∧ count_barriers gr = 1%nat.
Proof.
  assert (H : (match main_cells initial_state with
               | Ok s =>
                   match create_barriers 2 [0; 0; 0; 0] (grid s) with
                   | Some (Ok gr) => Some (count_barriers (grid s), count_barriers gr)
                   | _ => None
                   end
               | _ => None
               end) = Some (0%nat, 1%nat)) by (vm_compute; done).
  destruct (main_cells initial_state) as [s | ] eqn:Hs; [ | discriminate H].
  destruct (create_barriers 2 [0; 0; 0; 0] (grid s)) as [[gr | ] | ] eqn:Hgr;
    try discriminate H.
  injection H as H0 H1. exists s, gr. done.
Qed.

(** ** The membership scans *)

Lemma scan_from_spec arr (l : list Cell_Typedef) p (c : Z) (k : nat) :
  (k ≤ length l)%nat →
  scan_from arr l p c k = Ok (existsb (λ e, pos_eqb (position e) p) (take k l)).
Proof.
  revert l c. induction k as [ | k IH]; intros l c Hk; simpl; [done | ].
  destruct l as [ | e l]; simpl in *; [lia | ].
  destruct (pos_eqb (position e) p); simpl; [done | ].
  apply IH. lia.
Qed.

Lemma existsb_position_false (l : list Cell_Typedef) p :
  existsb (λ e, pos_eqb (position e) p) l = false ↔ ∀ e, e ∈ l → position e ≠ p.
Proof.
  induction l as [ | e l IH]; simpl.
  - split; [ | done]. intros _ e He. by apply not_elem_of_nil in He.
  - rewrite orb_false_iff, IH, pos_eqb_neq. split.
    + intros [He Hl] e' [-> | H']%elem_of_cons; auto.
    + intros H'. split; [ | intros e' He']; apply H'; by constructor.
Qed.

(** ** C1: cells explored twice *)

(** C1.  With the barriers of [pocket_rands], four calls of [a_star] lead to
    a state whose closed array records the coordinate [(3,7)] twice, at
    indices 2 and 3. *)
Theorem pocket_cell_explored_twice :
  ∃ s, state_after pocket_rands 4 = Some s
       ∧ reachable s
       ∧ map position (explored s) = [Pos 3 8; Pos 4 8; Pos 3 7; Pos 3 7].
Proof.
  assert (H : (s ← state_after pocket_rands 4; Some (map position (explored s)))
              = Some [Pos 3 8; Pos 4 8; Pos 3 7; Pos 3 7]) by (vm_compute; done).
  destruct (state_after pocket_rands 4) as [s | ] eqn:Hs; [ | discriminate H].
  injection H as H. exists s. split; [reflexivity | ].
  split; [exact (state_after_reachable _ _ _ Hs) | exact H].
Qed.

(** ** C3: more entries than cells *)

(** C3.  With the barriers of [wall_rands] (the target walled in), 1148 calls
    of [a_star] lead to a state with 453 entries in the queue and 1148
    records in the closed array: 1601 entries for 1600 cells. *)
Theorem wall_entries_exceed_cells :
  ∃ s, state_after wall_rands 1148 = Some s
       ∧ reachable s
       ∧ length (live (open_nodes_queue s)) = 453%nat
       ∧ length (explored s) = 1148%nat
       ∧ Z.of_nat (length (live (open_nodes_queue s)) + length (explored s))
         > CELL_COUNT * CELL_COUNT.
Proof.
  assert (H : (s ← state_after wall_rands 1148;
               Some (length (live (open_nodes_queue s)), length (explored s)))
              = Some (453%nat, 1148%nat)) by (vm_compute; done).
  destruct (state_after wall_rands 1148) as [s | ] eqn:Hs; [ | discriminate H].
  injection H as Hq Hc. exists s. split; [reflexivity | ].
  split; [exact (state_after_reachable _ _ _ Hs) | ].
  rewrite Hq, Hc. repeat split.
Qed.

(** In the same run the closed array itself is overrun: call 1601 of
    [a_star] writes [closed_nodes[1600]]. *)
Lemma wall_closed_array_overrun :
  (s ← state_after wall_rands 1600; Some (a_star s))
  = Some (OutOfBounds ARR_CLOSED QUEUE_SIZE).
Proof. vm_compute. reflexivity. Qed.

(** ** C10: the in-queue test skips the top entry *)

(** C10.  The in-queue test of [a_star] is decided by the entries at the
    indices below [idx] alone; an entry at the top index whose coordinate
    occurs nowhere below it is in the queue and yet not found by the test;
    and with the barriers of [pocket_rands], two calls of [a_star] lead to a
    state whose queue holds two entries with coordinate [(3,7)]. *)
Theorem in_queue_scan_skips_top :
  (∀ q p, idx q <= Z.of_nat (length (cells q)) →
     in_queue_scan q p
     = Ok (existsb (λ e, pos_eqb (position e) p)
                   (take (Z.to_nat (idx q)) (cells q))))
  ∧ (∀ q c, 0 <= idx q → cells q !! Z.to_nat (idx q) = Some c →
       (∀ e, e ∈ take (Z.to_nat (idx q)) (cells q) → position e ≠ position c) →
       c ∈ live q ∧ in_queue_scan q (position c) = Ok false)
  ∧ (∃ s e1 e2, state_after pocket_rands 2 = Some s
       ∧ reachable s
       ∧ live (open_nodes_queue s) = [e1; e2]
       ∧ position e1 = Pos 3 7 ∧ position e2 = Pos 3 7).
Proof.
  assert (Hscan : ∀ q p, idx q <= Z.of_nat (length (cells q)) →
     in_queue_scan q p
     = Ok (existsb (λ e, pos_eqb (position e) p)
                   (take (Z.to_nat (idx q)) (cells q)))).
  { intros q p Hlen. unfold in_queue_scan. apply scan_from_spec. lia. }
  split; [exact Hscan | split].
  - intros q c Hidx Hc Hbelow. split.
    + unfold live. apply list_elem_of_lookup. exists (Z.to_nat (idx q)).
      rewrite lookup_take_lt by lia. done.
    + rewrite Hscan by (apply lookup_lt_Some in Hc; lia).
      f_equal. by apply existsb_position_false.
  - assert (H : (s ← state_after pocket_rands 2;
                 Some (map position (live (open_nodes_queue s))))
                = Some [Pos 3 7; Pos 3 7]) by (vm_compute; done).
    destruct (state_after pocket_rands 2) as [s | ] eqn:Hs; [ | discriminate H].
    injection H as H.
    destruct (live (open_nodes_queue s)) as [ | e1 [ | e2 [ | ]]] eqn:Hl;
      try discriminate H.
    injection H as H1 H2. exists s, e1, e2.
    split; [reflexivity | ].
    split; [exact (state_after_reachable _ _ _ Hs) | ].
    repeat split; assumption.
Qed.

(** The second part on the queue of the second call after its [pop]. *)
Lemma in_queue_scan_skips_top_witness :
  cell_3_7_first ∈ live (Queue [cell_3_7_first] 0)
  ∧ in_queue_scan (Queue [cell_3_7_first] 0) (position cell_3_7_first) = Ok false.
Proof.
  apply (proj1 (proj2 in_queue_scan_skips_top)
               (Queue [cell_3_7_first] 0) cell_3_7_first).
  - simpl. lia.
  - reflexivity.
  - simpl. intros e He. by apply not_elem_of_nil in He.
Defined.

(** ** C4: the guard of the path walk *)

(** The loop in terms of its counter, as the C code has it. *)
Lemma draw_path_loop_unfold gr tmp_cell force_stop marked :
  draw_path_loop (Z.to_nat (1000 - force_stop)) gr tmp_cell force_stop marked
  = if force_stop <? 1000 then
      do gr1 <- grid_set_state gr (position tmp_cell) CELL_PATH;
      do tmp_cell' <- grid_get gr1 (parent_position tmp_cell);
      let marked' := marked ++ [position tmp_cell] in
      if is_sentinel (parent_position tmp_cell')
      then Ok (MkWalk gr1 tmp_cell' force_stop marked')
      else draw_path_loop (Z.to_nat (1000 - (force_stop + 1))) gr1 tmp_cell'
                          (force_stop + 1) marked'
    else Ok (MkWalk gr tmp_cell force_stop marked).
Proof.
  destruct (Z.ltb_spec force_stop 1000) as [Hlt | Hge].
  - replace (Z.to_nat (1000 - force_stop))
      with (S (Z.to_nat (1000 - (force_stop + 1)))) by lia.
    reflexivity.
  - replace (Z.to_nat (1000 - force_stop)) with O by lia. reflexivity.
Qed.

Lemma draw_path_loop_spec (n : nat) gr tmp_cell force_stop marked w :
  draw_path_loop n gr tmp_cell force_stop marked = Ok w →
  ∃ new, walk_marked w = marked ++ new
         ∧ (length new ≤ n)%nat
         ∧ force_stop <= walk_force_stop w <= force_stop + Z.of_nat n
         ∧ (walk_force_stop w = force_stop + Z.of_nat n →
            length new = n
            ∧ (walk_tmp_cell w = tmp_cell
               ∨ is_sentinel (parent_position (walk_tmp_cell w)) = false)).
Proof.
  revert gr tmp_cell force_stop marked.
  induction n as [ | n IH]; intros gr tmp_cell force_stop marked H; simpl in H.
  - injection H as <-. exists []. simpl.
    rewrite app_nil_r. repeat split; try done; try lia. by left.
  - inv_bind H. inv_bind H.
    destruct (is_sentinel (parent_position v0)) eqn:Hsent.
    + injection H as <-. simpl. exists [position tmp_cell]. simpl.
      repeat split; try done; lia.
    + apply IH in H as (new & Hm & Hlen & Hfs & Hcut).
      exists (position tmp_cell :: new). rewrite Hm, <- app_assoc. simpl.
      split; [done | ]. split; [lia | ]. split; [lia | ].
      intros Heq. destruct Hcut as [Hl Hs]; [lia | ].
      split; [lia | ]. right.
      destruct Hs as [-> | Hs]; done.
Qed.

Lemma draw_path_loop_marks (n : nat) gr tmp_cell force_stop marked w :
  draw_path_loop n gr tmp_cell force_stop marked = Ok w →
  (∀ p, p ∈ marked → is_path gr p) →
  ∀ p, p ∈ walk_marked w → is_path (walk_grid w) p.
Proof.
  revert gr tmp_cell force_stop marked.
  induction n as [ | n IH]; intros gr tmp_cell force_stop marked H Hm; simpl in H.
  { by injection H as <-. }
  inv_bind_as H gr1 Hgr1. inv_bind_as H tmp_cell' Htmp.
  assert (Hm1 : ∀ p, p ∈ marked ++ [position tmp_cell] → is_path gr1 p).
  { intros p Hp.
    destruct (decide (p = position tmp_cell)) as [-> | Hne].
    - apply grid_set_state_get_eq in Hgr1 as (c & _ & Hc).
      by exists (set_state c CELL_PATH).
    - apply elem_of_app in Hp as [Hp | Hp];
        [ | by apply list_elem_of_singleton in Hp].
      destruct (Hm p Hp) as (c & Hc & Hst). exists c.
      by rewrite (grid_set_state_get_ne _ _ _ _ _ Hgr1 Hne). }
  destruct (is_sentinel (parent_position tmp_cell')).
  - by injection H as <-.
  - by eapply IH.
Qed.

(** The walk runs at most 1000 rounds, and exactly 1000 when it is ended by
    its guard. *)
Lemma draw_path_walk_rounds (gr : Grid) (current_cell : Cell_Typedef) (w : Walk) :
  draw_path_walk gr current_cell = Ok w →
  (length (walk_marked w) ≤ 1000)%nat
  ∧ 0 <= walk_force_stop w <= 1000
  ∧ (walk_force_stop w = 1000 → length (walk_marked w) = 1000%nat).
Proof.
  intros H. unfold draw_path_walk in H. inv_bind H.
  apply draw_path_loop_spec in H as (new & Hm & Hlen & Hfs & Hcut).
  simpl in *. subst new.
  replace (Z.to_nat (1000 - 0)) with 1000%nat in * by lia.
  split; [done | ]. split; [lia | ].
  intros Heq. apply Hcut. lia.
Qed.

(** C4 (as amended).  The walk of [draw_path] runs at most
    [CELL_COUNT * CELL_COUNT] rounds; and whether it ends at the sentinel
    parent or is ended by its guard, [draw_path] returns in the ordinary way,
    with the cells the walk has visited marked [CELL_PATH]. *)
Theorem draw_path_guard (gr : Grid) (current_cell : Cell_Typedef) (w : Walk) :
  draw_path_walk gr current_cell = Ok w →
  Z.of_nat (length (walk_marked w)) <= CELL_COUNT * CELL_COUNT
  ∧ draw_path gr current_cell = Ok (walk_grid w)
  ∧ ∀ p, p ∈ walk_marked w → is_path (walk_grid w) p.
Proof.
  intros H. split; [ | split].
  - apply draw_path_walk_rounds in H as [Hlen _].
    unfold CELL_COUNT. lia.
  - unfold draw_path. by rewrite H.
  - unfold draw_path_walk in H. inv_bind H.
    apply (draw_path_loop_marks _ _ _ _ _ _ H).
    intros p Hp. by apply not_elem_of_nil in Hp.
Qed.

(** [draw_path_guard] on the walk from [(4,8)] back to the start. *)
Lemma draw_path_guard_witness :
  Z.of_nat (length (walk_marked pocket_walk)) <= CELL_COUNT * CELL_COUNT
  ∧ draw_path pocket_grid cell_4_8 = Ok (walk_grid pocket_walk)
  ∧ ∀ p, p ∈ walk_marked pocket_walk → is_path (walk_grid pocket_walk) p.
Proof.
  apply (draw_path_guard pocket_grid cell_4_8 pocket_walk).
  vm_compute. reflexivity.
Defined.

(** C4 (as stated) fails on the grid the program starts with, where every
    cell names [(0,0)] as its parent: the walk from cell [(0,0)] runs its
    1000 rounds without reaching the sentinel, is ended by the guard, and
    [draw_path] returns as it does after a complete walk. *)
Lemma draw_path_cut_short_silently :
  ∃ w, draw_path_walk (grid initial_state) zero_cell = Ok w
       ∧ length (walk_marked w) = 1000%nat
       ∧ walk_force_stop w = 1000
       ∧ is_sentinel (parent_position (walk_tmp_cell w)) = false
       ∧ draw_path (grid initial_state) zero_cell = Ok (walk_grid w).
Proof.
  assert (H : (match draw_path_walk (grid initial_state) zero_cell with
               | Ok w => Some (length (walk_marked w), walk_force_stop w,
                               is_sentinel (parent_position (walk_tmp_cell w)))
               | OutOfBounds _ _ => None
               end) = Some (1000%nat, 1000, false)) by (vm_compute; reflexivity).
  destruct (draw_path_walk (grid initial_state) zero_cell) as [w | ] eqn:Hw;
    [ | discriminate H].
  injection H as H1 H2 H3. exists w.
  repeat split; try assumption.
  unfold draw_path. rewrite Hw. reflexivity.
Qed.

(** ** C2: the admission rule *)

(** The admission rule as the code has it: for a neighbour inside the grid
    that is neither the target nor a barrier nor found in the closed array,
    the grid cell is rewritten and enqueued exactly when the in-queue scan
    (which skips the top entry) answers [false] or the tentative cost does
    not exceed [g]; otherwise the state is left as it is. *)
Lemma visit_neighbour_rule current_cell s neighbour nc (in_queue : bool) :
  out_of_grid neighbour = false →
  grid_get (grid s) neighbour = Ok nc →
  state nc ≠ CELL_TARGET →
  state nc ≠ CELL_BARRIER →
  is_closed_scan s neighbour = Ok false →
  in_queue_scan (open_nodes_queue s) neighbour = Ok in_queue →
  visit_neighbour current_cell s neighbour =
  if negb in_queue
     || (tentative_g current_cell neighbour <=? g (x neighbour) (y neighbour))
  then
    let nc' := admitted_cell current_cell nc neighbour
                             (tentative_g current_cell neighbour) in
    do gr' <- grid_set (grid s) neighbour nc';
    do queue' <- enqueue (open_nodes_queue s) nc';
    Ok (Next (MkState gr' queue' (closed_nodes_count s) (closed_nodes s)
                      (found_target s)))
  else Ok (Next s).
Proof.
  intros Hin Hnc Ht Hb Hclosed Hqueue. unfold visit_neighbour.
  rewrite Hin, Hnc. simpl.
  apply state_eqb_neq in Ht, Hb. rewrite Ht, Hb, Hclosed. simpl.
  rewrite Hqueue. simpl. done.
Qed.

(** C2.  With the barriers of [pocket_rands], the second call of [a_star]
    pops [(4,8)] and meets its neighbour [(3,7)] while [(3,7)] is the one
    entry of the queue, with a tentative cost of 24 against [g 3 7 = 10].
    The neighbour is in the queue and the tentative cost exceeds its start
    distance; all the same its grid cell is rewritten (cost 24, parent
    [(4,8)]) and a second entry for it is enqueued. *)
Theorem admission_misses_top_entry :
  ∃ s current_cell s1 s1',
    state_after pocket_rands 1 = Some s
    ∧ take_current s = Ok (Some (current_cell, s1))
    ∧ current_cell = cell_4_8
    ∧ live (open_nodes_queue s1) = [cell_3_7_first]
    ∧ grid_get (grid s1) (Pos 3 7) = Ok cell_3_7_first
    ∧ tentative_g current_cell (Pos 3 7) = 24
    ∧ g 3 7 = 10
    ∧ visit_neighbour current_cell s1 (Pos 3 7) = Ok (Next s1')
    ∧ grid_get (grid s1') (Pos 3 7) = Ok cell_3_7_second
    ∧ live (open_nodes_queue s1') = [cell_3_7_first; cell_3_7_second].
Proof.
  assert (H :
    (s ← state_after pocket_rands 1;
     match take_current s with
     | Ok (Some (current_cell, s1)) =>
         match visit_neighbour current_cell s1 (Pos 3 7) with
         | Ok (Next s1') =>
             Some (current_cell, live (open_nodes_queue s1),
                   grid_get (grid s1) (Pos 3 7),
                   tentative_g current_cell (Pos 3 7),
                   grid_get (grid s1') (Pos 3 7),
                   live (open_nodes_queue s1'))
         | _ => None
         end
     | _ => None
     end)
    = Some (cell_4_8, [cell_3_7_first], Ok cell_3_7_first, 24,
            Ok cell_3_7_second, [cell_3_7_first; cell_3_7_second]))
    by (vm_compute; reflexivity).
  destruct (state_after pocket_rands 1) as [s | ] eqn:Hs; [ | discriminate H].
  simpl in H.
  destruct (take_current s) as [[[current_cell s1] | ] | ] eqn:Ht;
    try discriminate H.
  destruct (visit_neighbour current_cell s1 (Pos 3 7)) as [[s1' | ] | ] eqn:Hv;
    try discriminate H.
  injection H as H1 H2 H3 H4 H5 H6.
  exists s, current_cell, s1, s1'.
  split; [reflexivity | ]. split; [exact Ht | ].
  split; [exact H1 | ]. split; [exact H2 | ]. split; [exact H3 | ].
  split; [exact H4 | ]. split; [reflexivity | ].
  split; [exact Hv | ]. split; [exact H5 | exact H6].
Qed.

(** ** C8: the start and the target cell keep their state *)

Lemma pos_eta (p : CellPosition_Typedef) : Pos (x p) (y p) = p.
Proof. by destruct p. Qed.

Lemma start_intact_kept gr : start_intact gr → start_kept gr.
Proof. intros (c & Hc & Hs & _). by exists c. Qed.

Lemma start_intact_set gr gr' p c' :
  grid_set gr p c' = Ok gr' → p ≠ start_position →
  start_intact gr → start_intact gr'.
Proof.
  intros Hset Hne (c & Hc & Hrest). exists c. split; [ | done].
  rewrite <- Hc. eapply grid_get_set_ne; [done | congruence].
Qed.

Lemma target_kept_set gr gr' p c' :
  grid_set gr p c' = Ok gr' → p ≠ target_position →
  target_kept gr → target_kept gr'.
Proof.
  intros Hset Hne (c & Hc & Hrest). exists c. split; [ | done].
  rewrite <- Hc. eapply grid_get_set_ne; [done | congruence].
Qed.

Lemma only_target_set gr gr' p c' :
  grid_set gr p c' = Ok gr' → state c' ≠ CELL_TARGET →
  only_target gr → only_target gr'.
Proof.
  intros Hset Hst Hot q c Hq Hc.
  destruct (decide (q = p)) as [-> | Hne].
  - rewrite (grid_get_set_eq _ _ _ _ Hset) in Hq. congruence.
  - rewrite (grid_get_set_ne _ _ _ _ _ Hset Hne) in Hq. by eapply Hot.
Qed.

Lemma admitted_set gr gr' C C' p0 c' p :
  grid_set gr p0 c' = Ok gr' →
  (∀ q, q ∈ C → q ∈ C') →
  position c' = p0 →
  (p0 = start_position ∨ parent_position c' ∈ C') →
  admitted gr C p → admitted gr' C' p.
Proof.
  intros Hset Hsub Hpos Hpar (Hnt & c & Hc & Hcp & Hcpar).
  split; [done | ].
  destruct (decide (p = p0)) as [-> | Hne].
  - exists c'. split; [by eapply grid_get_set_eq | done].
  - exists c. rewrite (grid_get_set_ne _ _ _ _ _ Hset Hne).
    split; [done | ]. split; [done | ]. destruct Hcpar; auto.
Qed.

Lemma admitted_set_state gr gr' C C' p0 st p :
  grid_set_state gr p0 st = Ok gr' →
  (∀ q, q ∈ C → q ∈ C') →
  admitted gr C p → admitted gr' C' p.
Proof.
  unfold grid_set_state. intros Hset Hsub Hadm. inv_bind Hset.
  destruct (decide (p = p0)) as [-> | Hne].
  - destruct Hadm as (Hnt & c & Hc & Hcp & Hcpar).
    assert (c = v) as -> by congruence.
    split; [done | ]. exists (set_state v st).
    split; [by eapply grid_get_set_eq | ]. simpl.
    split; [done | ]. destruct Hcpar; auto.
  - destruct Hadm as (Hnt & c & Hc & Hcp & Hcpar).
    split; [done | ]. exists c.
    rewrite (grid_get_set_ne _ _ _ _ _ Hset Hne).
    split; [done | ]. split; [done | ]. destruct Hcpar; auto.
Qed.

Lemma start_intact_set_state gr gr' p st :
  grid_set_state gr p st = Ok gr' → p ≠ start_position →
  start_intact gr → start_intact gr'.
Proof.
  unfold grid_set_state. intros Hset Hne. inv_bind Hset.
  by eapply start_intact_set.
Qed.

Lemma target_kept_set_state gr gr' p st :
  grid_set_state gr p st = Ok gr' → p ≠ target_position →
  target_kept gr → target_kept gr'.
Proof.
  unfold grid_set_state. intros Hset Hne. inv_bind Hset.
  by eapply target_kept_set.
Qed.

Lemma only_target_set_state gr gr' p st :
  grid_set_state gr p st = Ok gr' → st ≠ CELL_TARGET →
  only_target gr → only_target gr'.
Proof.
  unfold grid_set_state. intros Hset Hne. inv_bind Hset.
  by eapply only_target_set.
Qed.

Lemma is_sentinel_true p : is_sentinel p = true ↔ p = Pos (-1) (-1).
Proof.
  unfold is_sentinel. destruct p as [px py]; simpl.
  rewrite andb_true_iff, !Z.eqb_eq. split; [intros []; congruence | ].
  by intros [= -> ->].
Qed.

(** The walk of [draw_path] stays on admitted coordinates other than the
    start, so it never touches the start or the target cell. *)
Lemma draw_path_loop_keeps C (n : nat) gr tmp_cell force_stop marked w :
  start_intact gr → target_kept gr →
  (∀ p, p ∈ C → admitted gr C p) →
  position tmp_cell ∈ C →
  position tmp_cell ≠ start_position →
  parent_position tmp_cell ∈ C →
  draw_path_loop n gr tmp_cell force_stop marked = Ok w →
  start_kept (walk_grid w) ∧ target_kept (walk_grid w).
Proof.
  revert gr tmp_cell force_stop marked.
  induction n as [ | n IH];
    intros gr tmp_cell force_stop marked Hs Ht HC Hpos Hns Hpar H; simpl in H.
  { injection H as <-. simpl. split; [by apply start_intact_kept | done]. }
  inv_bind H. inv_bind H. rename v into gr1, v0 into tmp_cell'.
  assert (Hnt : position tmp_cell ≠ target_position) by (by destruct (HC _ Hpos)).
  assert (Hs1 : start_intact gr1) by (by eapply start_intact_set_state).
  assert (Ht1 : target_kept gr1) by (by eapply target_kept_set_state).
  assert (HC1 : ∀ p, p ∈ C → admitted gr1 C p).
  { intros p Hp. eapply admitted_set_state; [done | done | by apply HC]. }
  destruct (is_sentinel (parent_position tmp_cell')) eqn:Hsent.
  { injection H as <-. simpl. split; [by apply start_intact_kept | done]. }
  destruct (HC1 _ Hpar) as (_ & c & Hc & Hcpos & Hcpar).
  assert (c = tmp_cell') as -> by congruence.
  assert (Hne : parent_position tmp_cell ≠ start_position).
  { intros Heq. destruct Hs1 as (c0 & Hc0 & _ & _ & Hsp).
    rewrite Heq in E0. assert (c0 = tmp_cell') as -> by congruence.
    apply is_sentinel_true in Hsp. congruence. }
  apply (IH gr1 tmp_cell' (force_stop + 1) (marked ++ [position tmp_cell]));
    [done | done | done | by rewrite Hcpos | by rewrite Hcpos | | done].
  destruct Hcpar; [contradiction | done].
Qed.

Lemma draw_path_keeps C gr current_cell gr' :
  start_intact gr → target_kept gr →
  (∀ p, p ∈ C → admitted gr C p) →
  position current_cell ∈ C →
  position current_cell ≠ start_position →
  draw_path gr current_cell = Ok gr' →
  start_kept gr' ∧ target_kept gr'.
Proof.
  intros Hs Ht HC Hpos Hns H. unfold draw_path in H. inv_bind H.
  injection H as <-. unfold draw_path_walk in E. inv_bind E.
  destruct (HC _ Hpos) as (_ & c & Hc & Hcpos & Hcpar).
  assert (c = v0) as -> by congruence.
  apply (draw_path_loop_keeps C (Z.to_nat (1000 - 0)) gr v0 0 [] v);
    [done | done | done | by rewrite Hcpos | by rewrite Hcpos | | done].
  destruct Hcpar; [contradiction | done].
Qed.

Lemma scan_from_false arr (l : list Cell_Typedef) p (c : Z) (k : nat) :
  scan_from arr l p c k = Ok false → ∀ e, e ∈ take k l → position e ≠ p.
Proof.
  revert l c. induction k as [ | k IH]; intros l c H e He; simpl in *.
  - destruct l; by apply not_elem_of_nil in He.
  - destruct l as [ | e0 l]; [discriminate H | ].
    destruct (pos_eqb (position e0) p) eqn:Hp; [discriminate H | ].
    simpl in He. apply elem_of_cons in He as [-> | He].
    + by apply pos_eqb_neq.
    + by eapply IH.
Qed.

Lemma is_closed_scan_false s p :
  is_closed_scan s p = Ok false → p ∉ closed_positions s.
Proof.
  intros H Hin. unfold closed_positions in Hin.
  apply list_elem_of_fmap in Hin as (e & -> & He).
  by eapply (scan_from_false _ _ _ _ _ H).
Qed.

Lemma explored_snoc (s : State) (c : Cell_Typedef) closed' :
  array_set ARR_CLOSED (closed_nodes s) (closed_nodes_count s) c = Ok closed' →
  take (Z.to_nat (closed_nodes_count s + 1)) closed' = explored s ++ [c].
Proof.
  intros [Hi ->]%array_set_Ok. unfold explored.
  replace (Z.to_nat (closed_nodes_count s + 1))
    with (S (Z.to_nat (closed_nodes_count s))) by lia.
  erewrite take_S_r by (apply list_lookup_insert_eq; lia).
  by rewrite take_insert_ge.
Qed.

Lemma admitted_mono gr C C' p :
  (∀ q, q ∈ C → q ∈ C') → admitted gr C p → admitted gr C' p.
Proof.
  intros Hsub (Hnt & c & Hc & Hcp & Hcpar).
  split; [done | ]. exists c. repeat split; try done. destruct Hcpar; auto.
Qed.

(** The first part of [a_star] establishes the invariant of the neighbour
    loop. *)
Lemma take_current_inv s current_cell s1 :
  search_inv s →
  found_target s = false →
  take_current s = Ok (Some (current_cell, s1)) →
  loop_inv current_cell s1.
Proof.
  intros [Hst Htg Hot Hcl Hqu Hseed] Hfound H.
  unfold take_current in H. inv_bind H.
  destruct v as [queue1 [cur | ]]; [ | discriminate H].
  apply pop_Some in E as (_ & _ & _ & Hlive).
  inv_bind H. rename v into closed'.
  apply explored_snoc in E.
  rewrite pos_eta in H. inv_bind H. rename v into c.
  inv_bind H. rename v into gr1. injection H as <- <-.
  set (C := closed_positions s) in *.
  set (s1 := MkState gr1 queue1 (closed_nodes_count s + 1) closed' (found_target s)).
  assert (HC' : closed_positions s1 = C ++ [position cur]).
  { unfold closed_positions, explored at 1. simpl. rewrite E.
    by rewrite fmap_app. }
  assert (Hsub : ∀ q, q ∈ C → q ∈ closed_positions s1).
  { intros q Hq. rewrite HC'. apply elem_of_app. by left. }
  assert (Hcur : admitted (grid s) C (position cur)).
  { apply Hqu. rewrite Hlive. apply elem_of_app. right. by constructor. }
  assert (Hcur_in : position cur ∈ closed_positions s1).
  { rewrite HC'. apply elem_of_app. right. by constructor. }
  assert (Hstart_in : start_position ∈ closed_positions s1).
  { destruct Hseed as [Hin | [_ Hq]]; [by apply Hsub | ].
    rewrite Hlive, fmap_app in Hq. simpl in Hq.
    destruct (position <$> live queue1) as [ | p0 [ | ]]; simpl in Hq;
      try discriminate Hq.
    injection Hq as <-. done. }
  assert (Hgrid : start_intact gr1 ∧ target_kept gr1 ∧ only_target gr1
                  ∧ ∀ p, admitted (grid s) C p →
                         admitted gr1 (closed_positions s1) p).
  { destruct (state_eqb (state c) CELL_START) eqn:Hc; simpl in E1.
    - injection E1 as <-.
      split; [done | ]. split; [done | ]. split; [done | ].
      intros p Hp. by eapply admitted_mono.
    - apply state_eqb_neq in Hc.
      assert (Hns : position cur ≠ start_position).
      { intros Heq. destruct Hst as (c0 & Hc0 & Hs0 & _).
        rewrite Heq in E0. congruence. }
      destruct Hcur as [Hnt _].
      split; [by eapply start_intact_set_state | ].
      split; [by eapply target_kept_set_state | ].
      split; [by eapply only_target_set_state | ].
      intros p Hp. by eapply admitted_set_state. }
  destruct Hgrid as (Hst1 & Htg1 & Hot1 & Hadm).
  split; [ | done].
  split; simpl; try done.
  - intros p Hp. rewrite HC' in Hp. apply elem_of_app in Hp as [Hp | Hp].
    + by apply Hadm, Hcl.
    + apply list_elem_of_singleton in Hp as ->. by apply Hadm.
  - intros e He. apply Hadm, Hqu. rewrite Hlive. apply elem_of_app. by left.
  - by left.
Qed.

Lemma admitted_cell_state current_cell nc neighbour neighbour_g :
  state nc ≠ CELL_TARGET →
  state (admitted_cell current_cell nc neighbour neighbour_g) ≠ CELL_TARGET.
Proof. intros H. simpl. by destruct (state_eqb (state nc) CELL_EMPTY). Qed.

(** One round of the neighbour loop keeps the loop invariant, and when it
    leaves [a_star] through [draw_path] the start and target cell are as they
    were. *)
Lemma visit_neighbour_inv current_cell s neighbour r :
  loop_inv current_cell s →
  adjacent neighbour (position current_cell) →
  visit_neighbour current_cell s neighbour = Ok r →
  match r with
  | Next s' => loop_inv current_cell s'
  | Return s' =>
      found_target s' = true ∧ start_kept (grid s') ∧ target_kept (grid s')
  end.
Proof.
  intros Hinv Hadj H. pose proof Hinv as Hinv0.
  destruct Hinv as ([Hst Htg Hot Hcl Hqu Hseed] & Hfound & Hcur & Hstart).
  unfold visit_neighbour in H.
  destruct (out_of_grid neighbour); [by injection H as <- | ].
  inv_bind H. rename v into nc.
  destruct (state_eqb (state nc) CELL_TARGET) eqn:Htarget.
  { apply state_eqb_eq in Htarget.
    inv_bind H. injection H as <-. simpl.
    split; [done | ].
    assert (neighbour = target_position) as -> by (by eapply Hot).
    apply (draw_path_keeps (closed_positions s) (grid s) current_cell);
      try done.
    intros Heq. rewrite Heq in Hadj. destruct Hadj as [Hx _].
    vm_compute in Hx. by apply Hx. }
  apply state_eqb_neq in Htarget.
  destruct (state_eqb (state nc) CELL_BARRIER); [by injection H as <- | ].
  inv_bind H. destruct v; [by injection H as <- | ].
  apply is_closed_scan_false in E0.
  inv_bind H. rename v into in_queue.
  destruct (negb in_queue
            || (tentative_g current_cell neighbour
                <=? g (x neighbour) (y neighbour)));
    [ | by injection H as <-].
  simpl in H. inv_bind_as H gr' Hgr'.
  inv_bind_as H queue' Hqueue'. injection H as <-.
  set (nc' := admitted_cell current_cell nc neighbour
                            (tentative_g current_cell neighbour)) in *.
  assert (Hns : neighbour ≠ start_position) by congruence.
  assert (Hnt : neighbour ≠ target_position).
  { intros ->. destruct Htg as (ct & Hct & Hstate). congruence. }
  assert (Hpar : parent_position nc' ∈ closed_positions s).
  { simpl. by rewrite pos_eta. }
  assert (Hadm : ∀ p, admitted (grid s) (closed_positions s) p →
                      admitted gr' (closed_positions s) p).
  { intros p Hp. eapply admitted_set; try done. by right. }
  assert (Hnew : admitted gr' (closed_positions s) (position nc')).
  { split; [done | ]. exists nc'.
    split; [by eapply grid_get_set_eq | ]. split; [done | by right]. }
  split; [ | done].
  split; simpl.
  - by eapply start_intact_set.
  - by eapply target_kept_set.
  - eapply only_target_set; [done | | done]. by apply admitted_cell_state.
  - intros p Hp. by apply Hadm, Hcl.
  - intros e He.
    apply enqueue_Ok in Hqueue' as [[_ ->] | (_ & _ & _ & _ & Hlive)].
    + by apply Hadm, Hqu.
    + rewrite Hlive in He. apply elem_of_app in He as [He | He].
      * by apply Hadm, Hqu.
      * apply list_elem_of_singleton in He as ->. done.
  - by left.
Qed.

Lemma neighbours_adjacent (cx cy : Z) :
  Forall (λ n, adjacent n (Pos cx cy)) (neighbours cx cy).
Proof. unfold neighbours, adjacent. repeat constructor; simpl; lia. Qed.

Lemma for_neighbours_inv current_cell ns s r :
  loop_inv current_cell s →
  Forall (λ n, adjacent n (position current_cell)) ns →
  for_neighbours current_cell s ns = Ok r →
  match r with
  | Next s' => loop_inv current_cell s'
  | Return s' =>
      found_target s' = true ∧ start_kept (grid s') ∧ target_kept (grid s')
  end.
Proof.
  revert s. induction ns as [ | n ns IH]; intros s Hinv Hadj H; simpl in H.
  - by injection H as <-.
  - apply Forall_cons in Hadj as [Hn Hns].
    inv_bind H.
    pose proof (visit_neighbour_inv _ _ _ _ Hinv Hn E) as Hv.
    destruct v as [s' | s'].
    + by eapply IH.
    + by injection H as <-.
Qed.

Lemma qsort_queue_live sort q q' :
  qsort_conforming sort → qsort_queue sort q = Ok q' → live q' ≡ₚ live q.
Proof.
  intros Hsort H. unfold qsort_queue in H.
  destruct ((0 <=? idx q + 1) && (idx q + 1 <=? Z.of_nat (length (cells q))))
    eqn:Hb; [ | discriminate H].
  injection H as <-. unfold live. simpl.
  destruct (Hsort (take (Z.to_nat (idx q + 1)) (cells q))) as [Hperm Hsorted].
  apply andb_true_iff in Hb as [_ Hb%Z.leb_le].
  rewrite take_app_length'; [done | ].
  rewrite Hperm, length_take. lia.
Qed.

Lemma qsort_queue_sorted sort q q' :
  qsort_conforming sort → qsort_queue sort q = Ok q' → sorted_by_cost (live q').
Proof.
  intros Hsort H. unfold qsort_queue in H.
  destruct ((0 <=? idx q + 1) && (idx q + 1 <=? Z.of_nat (length (cells q))))
    eqn:Hb; [ | discriminate H].
  injection H as <-. unfold live. simpl.
  destruct (Hsort (take (Z.to_nat (idx q + 1)) (cells q))) as [Hperm Hsorted].
  apply andb_true_iff in Hb as [_ Hb%Z.leb_le].
  rewrite take_app_length'; [done | ].
  rewrite Hperm, length_take. lia.
Qed.

Lemma a_star_with_inv sort s s' :
  qsort_conforming sort → reach_inv s → a_star_with sort s = Ok s' → reach_inv s'.
Proof.
  intros Hsort [Hends Hinv] H. unfold a_star_with in H.
  destruct (found_target s) eqn:Hfound.
  { injection H as <-. split; [done | ]. intros Hf. congruence. }
  destruct (Hinv eq_refl) as [Hsi0 Hsorted0]. clear Hinv.
  inv_bind_as H taken Htaken.
  destruct taken as [[current_cell s1] | ]; [ | by injection H as <-].
  apply take_current_inv in Htaken; [ | done | done].
  inv_bind_as H r Hr.
  apply for_neighbours_inv in Hr; [ | done | ].
  2: { rewrite <- (pos_eta (position current_cell)) at 1.
       apply neighbours_adjacent. }
  destruct r as [s2 | s2].
  - inv_bind_as H queue2 Hqueue2. injection H as <-.
    destruct Hr as ([Hst Htg Hot Hcl Hqu Hseed] & Hf & _ & Hstart).
    assert (Hsi : search_inv (MkState (grid s2) queue2 (closed_nodes_count s2)
                                      (closed_nodes s2) (found_target s2))).
    { split; simpl; try done.
      - intros e He. apply Hqu.
        by rewrite <- (qsort_queue_live _ _ _ Hsort Hqueue2).
      - by left. }
    split; [simpl; split; [by apply start_intact_kept | done] | ].
    intros _. split; [done | ]. simpl. by eapply qsort_queue_sorted.
  - injection H as <-. destruct Hr as (Hf & Hs & Ht).
    split; [done | ]. intros Hf'. congruence.
Qed.

(** [create_barriers] leaves every cell in state [CELL_START] or
    [CELL_TARGET] as it is, and makes no cell a target. *)
Lemma create_barriers_loop_keeps rs gr n_created n_barriers gr' :
  create_barriers_loop rs gr n_created n_barriers = Some (Ok gr') →
  (∀ p c, grid_get gr p = Ok c →
          state c = CELL_START ∨ state c = CELL_TARGET →
          grid_get gr' p = Ok c)
  ∧ (only_target gr → only_target gr').
Proof.
  remember (length rs) as k eqn:Hk. revert rs Hk gr n_created.
  induction k as [k IH] using lt_wf_ind. intros rs Hk gr n_created H.
  destruct rs as [ | r1 [ | r2 rs]]; simpl in H;
    destruct (n_created <? n_barriers);
    try discriminate H; try (injection H as <-; done).
  set (p0 := Pos (Z.rem r1 CELL_COUNT) (Z.rem r2 CELL_COUNT)) in *.
  destruct (grid_get gr p0) as [c0 | ] eqn:Hc0; [ | discriminate H].
  destruct (negb (state_eqb (state c0) CELL_START)
            && negb (state_eqb (state c0) CELL_TARGET)) eqn:Hguard.
  - destruct (grid_set_state gr p0 CELL_BARRIER) as [gr1 | ] eqn:Hgr1;
      [ | discriminate H].
    apply andb_true_iff in Hguard as [Hs%negb_true_iff Ht%negb_true_iff].
    apply state_eqb_neq in Hs, Ht.
    apply (IH (length rs)) in H as [Hkeep Honly]; [ | simpl in Hk; lia | done].
    split.
    + intros p c Hc Hst. apply Hkeep; [ | done].
      rewrite <- Hc. eapply grid_set_state_get_ne; [done | ].
      intros ->. assert (c = c0) as -> by congruence. by destruct Hst.
    + intros Hot. apply Honly. by eapply only_target_set_state.
  - apply (IH (length rs)) in H; [done | simpl in Hk; lia | done].
Qed.

Lemma initial_grid_get p c : grid_get initial_grid p = Ok c → c = zero_cell.
Proof.
  unfold grid_get, initial_grid. intros H. inv_bind_as H row Hrow.
  apply array_get_Ok in Hrow as [_ Hrow], H as [_ H].
  apply lookup_replicate in Hrow as [-> _].
  by apply lookup_replicate in H as [-> _].
Qed.

(** [main] starts the search in a state that satisfies the invariant. *)
Lemma main_setup_inv rs s : main_setup rs = Some (Ok s) → reach_inv s.
Proof.
  unfold main_setup. intros H.
  destruct (main_cells initial_state) as [s0 | ] eqn:Hs0; [ | discriminate H].
  destruct (create_barriers 1000 rs (grid s0)) as [[gr | ] | ] eqn:Hgr;
    try discriminate H.
  injection H as <-.
  unfold main_cells in Hs0.
  inv_bind_as Hs0 gr1 Hgr1.
  inv_bind_as Hs0 queue1 Hqueue1. inv_bind_as Hs0 t Ht.
  inv_bind_as Hs0 gr2 Hgr2. injection Hs0 as <-.
  cbn [grid open_nodes_queue closed_nodes closed_nodes_count found_target
       initial_state] in *.
  apply create_barriers_loop_keeps in Hgr as [Hkeep Honly].
  assert (Hne : start_position ≠ target_position) by done.
  assert (Hstart2 : grid_get gr2 start_position = Ok start_cell).
  { rewrite (grid_get_set_ne _ _ _ _ _ Hgr2 Hne). by eapply grid_get_set_eq. }
  assert (Hst : start_intact gr).
  { exists start_cell. split; [ | done]. apply Hkeep; [done | by left]. }
  assert (Htg : target_kept gr).
  { eexists. split; [apply Hkeep; [by eapply grid_get_set_eq | by right] | ].
    reflexivity. }
  assert (Hot : only_target gr).
  { apply Honly. intros p c Hc Hstate.
    destruct (decide (p = target_position)) as [ | Hpt]; [done | ].
    rewrite (grid_get_set_ne _ _ _ _ _ Hgr2 Hpt) in Hc.
    destruct (decide (p = start_position)) as [-> | Hps].
    - rewrite (grid_get_set_eq _ _ _ _ Hgr1) in Hc.
      injection Hc as <-. discriminate Hstate.
    - rewrite (grid_get_set_ne _ _ _ _ _ Hgr1 Hps) in Hc.
      apply initial_grid_get in Hc as ->. discriminate Hstate. }
  assert (Hlive : live queue1 = [start_cell]).
  { apply enqueue_Ok in Hqueue1 as [[Hfull _] | (_ & _ & _ & _ & Hlive)];
      [discriminate Hfull | exact Hlive]. }
  split; [split; [by apply start_intact_kept | done] | ].
  intros _.
  set (s := MkState gr queue1 0 (replicate (Z.to_nat QUEUE_SIZE) zero_cell) false).
  assert (Hclosed : closed_positions s = []) by reflexivity.
  split; [ | cbn [open_nodes_queue s]; rewrite Hlive; repeat constructor].
  split; rewrite ?Hclosed; cbn [grid open_nodes_queue s]; try done.
  - intros p Hp. by apply not_elem_of_nil in Hp.
  - intros e He. rewrite Hlive in He.
    apply list_elem_of_singleton in He as ->.
    split; [done | ]. exists start_cell.
    split; [ | split; [done | by left]].
    apply Hkeep; [done | by left].
  - right. split; [done | ]. by rewrite Hlive.
Qed.

Lemma reachable_inv s : reachable s → reach_inv s.
Proof.
  induction 1 as [rs s Hs | s s' _ IH (sort & Hsort & Hstep)].
  - by eapply main_setup_inv.
  - by eapply a_star_with_inv.
Qed.

(** C8.  In every state the program reaches (whatever [rand()] returned to
    the barrier generator, and whatever [qsort] implementation is linked)
    the start cell has state [CELL_START] and the target cell has state
    [CELL_TARGET]. *)
Theorem start_and_target_keep_state (s : State) :
  reachable s → start_kept (grid s) ∧ target_kept (grid s).
Proof. intros Hr. by destruct (reachable_inv s Hr). Qed.

(** [start_and_target_keep_state] in the state in which the search on the
    open grid has found the target and drawn the path. *)
Lemma start_and_target_keep_state_witness :
  start_kept (grid found_state) ∧ target_kept (grid found_state).
Proof.
  apply (start_and_target_keep_state found_state).
  apply (state_after_reachable open_rands 35).
  vm_compute. reflexivity.
Defined.

(** Until the target is found, the queue a call of [a_star] starts from is
    in the order [qsort] left it in: the premise of C7 holds in every state
    the program reaches. *)
Lemma reachable_queue_sorted (s : State) :
  reachable s → found_target s = false →
  sorted_by_cost (live (open_nodes_queue s)).
Proof. intros Hr Hf. destruct (reachable_inv s Hr) as [_ Hi]. by apply Hi. Qed.

(** * Further properties of the code *)

(** ** The distance functions *)

Lemma compute_distance_eq (x1 y1 x2 y2 : Z) :
  compute_distance x1 y1 x2 y2
  = 4 * (Z.abs (x1 - x2) + Z.abs (y1 - y2))
    + 6 * Z.max (Z.abs (x1 - x2)) (Z.abs (y1 - y2)).
Proof.
  unfold compute_distance.
  destruct (Z.gtb_spec (Z.abs (x1 - x2)) (Z.abs (y1 - y2))); lia.
Qed.

(** X1.  [compute_distance] does not depend on the order of its two points. *)
Theorem compute_distance_sym (x1 y1 x2 y2 : Z) :
  compute_distance x1 y1 x2 y2 = compute_distance x2 y2 x1 y1.
Proof. rewrite !compute_distance_eq. lia. Qed.



(** X4.  From any cell, [compute_distance] to the eight neighbours that
    [a_star] enumerates is 14 for the four diagonal ones (which come first)
    and 10 for the four straight ones. *)
Theorem neighbours_distance (cx cy : Z) :
  map (λ n, compute_distance cx cy (x n) (y n)) (neighbours cx cy)
  = [14; 14; 14; 14; 10; 10; 10; 10].
Proof.
  unfold neighbours. simpl. rewrite !compute_distance_eq.
  repeat (apply (f_equal2 cons); [lia | ]). done.
Qed.


(** ** The queue and its comparator *)

(** X6.  On a queue that is not full, [enqueue] followed by [pop] gives the
    enqueued cell back and leaves the entries the queue had before. *)
Theorem enqueue_then_pop (q q' : Queue_Typedef) (c : Cell_Typedef) :
  is_full q = false →
  enqueue q c = Ok q' →
  pop q' = Ok (Queue (cells q') (idx q' - 1), Some c)
  ∧ idx q' - 1 = idx q
  ∧ live (Queue (cells q') (idx q' - 1)) = live q.
Proof.
  intros Hfull H.
  apply enqueue_Ok in H as [[Hf _] | (_ & Hidx & Hlen & -> & Hlive)];
    [congruence | ].
  simpl. split; [ | split; [lia | ]].
  - unfold pop, is_empty. simpl.
    destruct (Z.ltb_spec (idx q + 1) 0); [lia | ].
    assert (array_get ARR_QUEUE (<[Z.to_nat (idx q + 1):=c]> (cells q))
                      (idx q + 1) = Ok c) as ->; [ | done].
    apply array_get_Ok. split; [lia | ].
    apply list_lookup_insert_eq. lia.
  - unfold live. simpl.
    replace (idx q + 1 - 1 + 1) with (idx q + 1) by lia.
    apply take_insert_ge. lia.
Qed.

Lemma enqueue_then_pop_witness :
  pop pocket_queue_pushed
  = Ok (Queue (cells pocket_queue_pushed) (idx pocket_queue_pushed - 1),
        Some cell_4_8)
  ∧ idx pocket_queue_pushed - 1 = idx pocket_queue
  ∧ live (Queue (cells pocket_queue_pushed) (idx pocket_queue_pushed - 1))
    = live pocket_queue.
Proof.
  apply (enqueue_then_pop pocket_queue pocket_queue_pushed cell_4_8).
  - vm_compute. reflexivity.
  - vm_compute. reflexivity.
Defined.


(** ** The empty queue *)

(** X8.  When the target is not found and the queue is empty, a call of
    [a_star] changes nothing, and neither does any number of calls: the
    search has ended without a path. *)
Theorem a_star_empty_queue_noop (s : State) :
  found_target s = false →
  is_empty (open_nodes_queue s) = true →
  (∀ s', a_star_step s s' → s' = s) ∧ ∀ n, run n s = Ok s.
Proof.
  intros Hf He.
  assert (Hstep : ∀ sort, a_star_with sort s = Ok s).
  { intros sort. unfold a_star_with, take_current, pop. by rewrite Hf, He. }
  split.
  - intros s' (sort & _ & Hs). rewrite Hstep in Hs. by injection Hs.
  - intros n. induction n as [ | n IH]; simpl; [done | ].
    unfold a_star. by rewrite Hstep.
Qed.

Lemma a_star_empty_queue_noop_witness :
  (∀ s', a_star_step exhausted_state s' → s' = exhausted_state)
  ∧ ∀ n, run n exhausted_state = Ok exhausted_state.
Proof.
  apply (a_star_empty_queue_noop exhausted_state); vm_compute; reflexivity.
Defined.

(** ** The colour of a cell *)

Lemma grid_get_shape (gr : Grid) (p : CellPosition_Typedef) :
  grid_shape gr → out_of_grid p = false → ∃ c, grid_get gr p = Ok c.
Proof.
  intros [Hlen Hrows] Hin. unfold out_of_grid in Hin.
  apply orb_false_iff in Hin as [Hin Hy2].
  apply orb_false_iff in Hin as [Hin Hy1].
  apply orb_false_iff in Hin as [Hx1 Hx2].
  apply Z.ltb_ge in Hx1, Hy1.
  assert (x p <= CELL_COUNT - 1) by (destruct (Z.gtb_spec (x p) (CELL_COUNT - 1)); [done | lia]).
  assert (y p <= CELL_COUNT - 1) by (destruct (Z.gtb_spec (y p) (CELL_COUNT - 1)); [done | lia]).
  destruct (lookup_lt_is_Some_2 gr (Z.to_nat (x p))) as [row Hrow]; [lia | ].
  assert (Hrl : length row = Z.to_nat CELL_COUNT).
  { rewrite Forall_forall in Hrows. apply Hrows.
    apply list_elem_of_lookup. eauto. }
  destruct (lookup_lt_is_Some_2 row (Z.to_nat (y p))) as [c Hc]; [lia | ].
  exists c. unfold grid_get.
  assert (array_get ARR_GRID gr (x p) = Ok row) as -> by (by apply array_get_Ok).
  simpl. by apply array_get_Ok.
Qed.

(** X9.  On a grid of the declared size [set_cell_colour] never reads
    outside the grid: for a coordinate outside [0 .. CELL_COUNT - 1] it
    returns [false] and leaves the draw colour alone, and otherwise it
    returns [true] with the draw colour set to the colour of the cell's
    state. *)
Theorem set_cell_colour_range (gr : Grid) (renderer : Colour) (cx cy : Z) :
  grid_shape gr →
  (out_of_grid (Pos cx cy) = true
   ∧ set_cell_colour gr renderer cx cy = Ok (false, renderer))
  ∨ (out_of_grid (Pos cx cy) = false
     ∧ ∃ c, grid_get gr (Pos cx cy) = Ok c
            ∧ set_cell_colour gr renderer cx cy
              = Ok (true, state_colour (state c))).
Proof.
  intros Hshape. unfold set_cell_colour.
  destruct (out_of_grid (Pos cx cy)) eqn:Hout; unfold out_of_grid in Hout;
    simpl in Hout; rewrite Hout.
  - by left.
  - right. split; [done | ].
    destruct (grid_get_shape gr (Pos cx cy) Hshape) as [c Hc]; [done | ].
    exists c. by rewrite Hc.
Qed.

Lemma initial_grid_shape : grid_shape initial_grid.
Proof.
  unfold grid_shape, initial_grid. rewrite length_replicate.
  split; [done | ]. apply Forall_forall. intros row Hrow.
  apply elem_of_replicate in Hrow as [-> _].
  apply length_replicate.
Qed.

Lemma set_cell_colour_range_witness :
  (out_of_grid (Pos 40 0) = true
   ∧ set_cell_colour initial_grid (MkColour 0 0 0 0) 40 0
     = Ok (false, MkColour 0 0 0 0))
  ∨ (out_of_grid (Pos 40 0) = false
     ∧ ∃ c, grid_get initial_grid (Pos 40 0) = Ok c
            ∧ set_cell_colour initial_grid (MkColour 0 0 0 0) 40 0
              = Ok (true, state_colour (state c))).
Proof.
  apply (set_cell_colour_range initial_grid (MkColour 0 0 0 0) 40 0).
  apply initial_grid_shape.
Defined.

(** X10.  [set_cell_colour] gives different colours to different cell
    states: the colour shown tells the state. *)
Theorem state_colour_injective (st1 st2 : CellState_Typedef) :
  state_colour st1 = state_colour st2 → st1 = st2.
Proof. destruct st1, st2; simpl; intros H; try discriminate H; done. Qed.

Lemma state_colour_injective_witness : CELL_PATH = CELL_PATH.
Proof. apply (state_colour_injective CELL_PATH CELL_PATH). reflexivity. Defined.

(** ** What one call of [a_star] is made of *)

(** The first part of [a_star], when it pops a cell. *)
Lemma take_current_Some s current_cell s1 :
  take_current s = Ok (Some (current_cell, s1)) →
  0 <= idx (open_nodes_queue s)
  ∧ cells (open_nodes_queue s) !! Z.to_nat (idx (open_nodes_queue s))
    = Some current_cell
  ∧ 0 <= closed_nodes_count s < Z.of_nat (length (closed_nodes s))
  ∧ open_nodes_queue s1
    = Queue (cells (open_nodes_queue s)) (idx (open_nodes_queue s) - 1)
  ∧ closed_nodes_count s1 = closed_nodes_count s + 1
  ∧ closed_nodes s1
    = <[Z.to_nat (closed_nodes_count s) := current_cell]> (closed_nodes s)
  ∧ found_target s1 = found_target s
  ∧ ∃ c, grid_get (grid s) (position current_cell) = Ok c
         ∧ ((state c = CELL_START ∧ grid s1 = grid s)
            ∨ (state c ≠ CELL_START
               ∧ grid_set_state (grid s) (position current_cell) CELL_VISITED
                 = Ok (grid s1))).
Proof.
  intros H. unfold take_current in H. inv_bind_as H popped Hpop.
  destruct popped as [queue1 [cur | ]]; [ | discriminate H].
  apply pop_Some in Hpop as (Hidx & -> & Hcur & _).
  inv_bind_as H closed' Hclosed. apply array_set_Ok in Hclosed as [Hcount ->].
  rewrite pos_eta in H. inv_bind_as H c Hc. inv_bind_as H gr1 Hgr1.
  injection H as <- <-. simpl.
  repeat (split; [done | ]).
  exists c. split; [done | ].
  destruct (state_eqb (state c) CELL_START) eqn:Hst; simpl in Hgr1.
  - left. apply state_eqb_eq in Hst. by injection Hgr1 as <-.
  - right. by apply state_eqb_neq in Hst.
Qed.

(** The three ways one round of the neighbour loop can go: the neighbour is
    skipped, the target is met, or the neighbour is admitted. *)
Lemma visit_neighbour_cases current_cell s neighbour r :
  visit_neighbour current_cell s neighbour = Ok r →
  r = Next s
  ∨ (∃ nc gr', out_of_grid neighbour = false
       ∧ grid_get (grid s) neighbour = Ok nc
       ∧ state nc = CELL_TARGET
       ∧ draw_path (grid s) current_cell = Ok gr'
       ∧ r = Return (MkState gr' (open_nodes_queue s) (closed_nodes_count s)
                             (closed_nodes s) true))
  ∨ (∃ nc gr' queue',
       out_of_grid neighbour = false
       ∧ grid_get (grid s) neighbour = Ok nc
       ∧ state nc ≠ CELL_TARGET
       ∧ state nc ≠ CELL_BARRIER
       ∧ is_closed_scan s neighbour = Ok false
       ∧ grid_set (grid s) neighbour
                  (admitted_cell current_cell nc neighbour
                                 (tentative_g current_cell neighbour)) = Ok gr'
       ∧ enqueue (open_nodes_queue s)
                 (admitted_cell current_cell nc neighbour
                                (tentative_g current_cell neighbour)) = Ok queue'
       ∧ r = Next (MkState gr' queue' (closed_nodes_count s) (closed_nodes s)
                           (found_target s))).
Proof.
  intros H. unfold visit_neighbour in H.
  destruct (out_of_grid neighbour) eqn:Hout; [left; by injection H as <- | ].
  inv_bind_as H nc Hnc.
  destruct (state_eqb (state nc) CELL_TARGET) eqn:Htarget.
  { apply state_eqb_eq in Htarget. inv_bind_as H gr' Hgr'. injection H as <-.
    right; left. by exists nc, gr'. }
  apply state_eqb_neq in Htarget.
  destruct (state_eqb (state nc) CELL_BARRIER) eqn:Hbarrier;
    [left; by injection H as <- | ].
  apply state_eqb_neq in Hbarrier.
  inv_bind_as H is_closed Hclosed.
  destruct is_closed; [left; by injection H as <- | ].
  inv_bind_as H in_queue Hin_queue.
  destruct (negb in_queue
            || (tentative_g current_cell neighbour
                <=? g (x neighbour) (y neighbour)));
    [ | left; by injection H as <-].
  simpl in H. inv_bind_as H gr' Hgr'. inv_bind_as H queue' Hqueue'.
  injection H as <-. right; right. by exists nc, gr', queue'.
Qed.

(** A property of the state inside the neighbour loop that the first part
    of [a_star] establishes and every round keeps leads, through the final
    [qsort] or the return at the target, to a property of the state
    [a_star] returns. *)
Lemma a_star_with_rule (P : Cell_Typedef → State → Prop) (Q : State → Prop)
    sort s s' :
  found_target s = false →
  a_star_with sort s = Ok s' →
  (take_current s = Ok None → Q s) →
  (∀ cur s1, take_current s = Ok (Some (cur, s1)) → P cur s1) →
  (∀ cur s1 n r, P cur s1 → adjacent n (position cur) →
     visit_neighbour cur s1 n = Ok r →
     match r with Next s2 => P cur s2 | Return s2 => Q s2 end) →
  (∀ cur s2 queue2, P cur s2 →
     qsort_queue sort (open_nodes_queue s2) = Ok queue2 →
     Q (MkState (grid s2) queue2 (closed_nodes_count s2) (closed_nodes s2)
                (found_target s2))) →
  Q s'.
Proof.
  intros Hf H Hnone Htake Hvisit Hsort. unfold a_star_with in H.
  rewrite Hf in H. inv_bind_as H taken Htaken.
  destruct taken as [[cur s1] | ]; [ | injection H as <-; by apply Hnone].
  inv_bind_as H r Hr.
  assert (Hloop : ∀ ns s1 r,
            P cur s1 → Forall (λ n, adjacent n (position cur)) ns →
            for_neighbours cur s1 ns = Ok r →
            match r with Next s2 => P cur s2 | Return s2 => Q s2 end).
  { clear -Hvisit. induction ns as [ | n ns IH]; intros s1 r HP Hadj H; simpl in H.
    - by injection H as <-.
    - apply Forall_cons in Hadj as [Hn Hns]. inv_bind_as H r1 Hr1.
      pose proof (Hvisit _ _ _ _ HP Hn Hr1) as Hv.
      destruct r1 as [s2 | s2]; [by eapply IH | by injection H as <-]. }
  apply Hloop in Hr; [ | by apply Htake | ].
  2: { rewrite <- (pos_eta (position cur)) at 1. apply neighbours_adjacent. }
  destruct r as [s2 | s2]; [ | by injection H as <-].
  inv_bind_as H queue2 Hqueue2. injection H as <-. by eapply Hsort.
Qed.

(** ** One call, one expansion *)

Lemma visit_neighbour_counts current_cell s neighbour r :
  visit_neighbour current_cell s neighbour = Ok r →
  closed_nodes (flow_state r) = closed_nodes s
  ∧ closed_nodes_count (flow_state r) = closed_nodes_count s
  ∧ idx (open_nodes_queue s) <= idx (open_nodes_queue (flow_state r))
    <= idx (open_nodes_queue s) + 1.
Proof.
  intros H.
  apply visit_neighbour_cases in H
    as [-> | [(nc & gr' & _ & _ & _ & _ & ->)
             | (nc & gr' & queue' & _ & _ & _ & _ & _ & _ & Hq & ->)]];
    simpl; try (repeat split; (done || lia)).
  apply enqueue_Ok in Hq as [[_ ->] | (_ & _ & _ & -> & _)]; simpl;
    repeat split; (done || lia).
Qed.

Lemma for_neighbours_counts current_cell ns s r :
  for_neighbours current_cell s ns = Ok r →
  closed_nodes (flow_state r) = closed_nodes s
  ∧ closed_nodes_count (flow_state r) = closed_nodes_count s
  ∧ idx (open_nodes_queue s) <= idx (open_nodes_queue (flow_state r))
    <= idx (open_nodes_queue s) + Z.of_nat (length ns).
Proof.
  revert s. induction ns as [ | n ns IH]; intros s H; simpl in H.
  - injection H as <-. simpl. repeat split; (done || lia).
  - inv_bind_as H r1 Hr1.
    apply visit_neighbour_counts in Hr1 as (Hc1 & Hn1 & Hi1).
    destruct r1 as [s1 | s1]; simpl in *.
    + apply IH in H as (Hc & Hn & Hi).
      rewrite Hc, Hn. repeat split; try done; lia.
    + injection H as <-. simpl. repeat split; try done; lia.
Qed.

(** X11.  A call of [a_star] that finds the target not yet found and the
    queue not empty performs one expansion: it moves the top entry of the
    queue to the end of the closed array, which grows by that one record,
    and leaves the queue with at most seven entries more and at most one
    entry less than before. *)
Theorem a_star_expands_one (s s' : State) :
  found_target s = false →
  is_empty (open_nodes_queue s) = false →
  a_star_step s s' →
  ∃ current_cell,
    cells (open_nodes_queue s) !! Z.to_nat (idx (open_nodes_queue s))
    = Some current_cell
    ∧ explored s' = explored s ++ [current_cell]
    ∧ closed_nodes_count s' = closed_nodes_count s + 1
    ∧ idx (open_nodes_queue s) - 1 <= idx (open_nodes_queue s')
      <= idx (open_nodes_queue s) + 7.
Proof.
  intros Hf Hne (sort & _ & H). unfold a_star_with in H. rewrite Hf in H.
  inv_bind_as H taken Htaken.
  destruct taken as [[cur s1] | ].
  2: { unfold take_current, pop in Htaken. rewrite Hne in Htaken.
       inv_bind_as Htaken popped Hpopped. inv_bind_as Hpopped c Hc.
       injection Hpopped as <-. inv_bind_as Htaken v1 Hv1.
       inv_bind_as Htaken v2 Hv2. inv_bind_as Htaken v3 Hv3.
       discriminate Htaken. }
  apply take_current_Some in Htaken
    as (Hidx & Hcur & Hcount & Hq1 & Hn1 & Hc1 & _ & _).
  inv_bind_as H r Hr.
  apply for_neighbours_counts in Hr as (Hc & Hn & Hi).
  rewrite Hq1, Hn1, Hc1 in *. simpl in Hi.
  assert (Hexp : take (Z.to_nat (closed_nodes_count s + 1))
                      (<[Z.to_nat (closed_nodes_count s):=cur]> (closed_nodes s))
                 = explored s ++ [cur]).
  { unfold explored.
    replace (Z.to_nat (closed_nodes_count s + 1))
      with (S (Z.to_nat (closed_nodes_count s))) by lia.
    erewrite take_S_r by (apply list_lookup_insert_eq; lia).
    by rewrite take_insert_ge. }
  exists cur. split; [done | ].
  destruct r as [s2 | s2]; simpl in *.
  - inv_bind_as H queue2 Hqueue2. injection H as <-.
    unfold explored at 1. simpl. rewrite Hc, Hn.
    split; [done | ]. split; [done | ].
    unfold qsort_queue in Hqueue2.
    destruct ((0 <=? idx (open_nodes_queue s2) + 1)
              && (idx (open_nodes_queue s2) + 1
                  <=? Z.of_nat (length (cells (open_nodes_queue s2)))));
      [ | discriminate Hqueue2].
    injection Hqueue2 as <-. simpl. lia.
  - injection H as <-. unfold explored at 1. rewrite Hc, Hn.
    split; [done | ]. split; [done | lia].
Qed.

Lemma a_star_expands_one_witness :
  ∃ current_cell,
    cells (open_nodes_queue pocket_state_1)
    !! Z.to_nat (idx (open_nodes_queue pocket_state_1)) = Some current_cell
    ∧ explored pocket_state_2 = explored pocket_state_1 ++ [current_cell]
    ∧ closed_nodes_count pocket_state_2 = closed_nodes_count pocket_state_1 + 1
    ∧ idx (open_nodes_queue pocket_state_1) - 1
      <= idx (open_nodes_queue pocket_state_2)
      <= idx (open_nodes_queue pocket_state_1) + 7.
Proof.
  apply (a_star_expands_one pocket_state_1 pocket_state_2).
  - vm_compute. reflexivity.
  - vm_compute. reflexivity.
  - apply a_star_is_step. vm_compute. reflexivity.
Defined.

(** ** The arrays keep their sizes *)

Lemma grid_set_shape gr p c gr' :
  grid_shape gr → grid_set gr p c = Ok gr' → grid_shape gr'.
Proof.
  intros [Hlen Hrows] H. unfold grid_set in H.
  inv_bind_as H row Hrow. inv_bind_as H row' Hrow'.
  apply array_get_Ok in Hrow as [_ Hrow].
  apply array_set_Ok in Hrow' as [_ ->], H as [_ ->].
  split; [by rewrite length_insert | ].
  apply Forall_insert; [done | ].
  rewrite length_insert. rewrite Forall_forall in Hrows. apply Hrows.
  apply list_elem_of_lookup. eauto.
Qed.

Lemma grid_set_state_shape gr p st gr' :
  grid_shape gr → grid_set_state gr p st = Ok gr' → grid_shape gr'.
Proof.
  intros Hs H. unfold grid_set_state in H. inv_bind_as H c Hc.
  by eapply grid_set_shape.
Qed.

Lemma draw_path_loop_shape (n : nat) gr tmp_cell force_stop marked w :
  grid_shape gr →
  draw_path_loop n gr tmp_cell force_stop marked = Ok w →
  grid_shape (walk_grid w).
Proof.
  revert gr tmp_cell force_stop marked.
  induction n as [ | n IH]; intros gr tmp_cell force_stop marked Hs H;
    simpl in H.
  { by injection H as <-. }
  inv_bind_as H gr1 Hgr1. inv_bind_as H tmp_cell' Htmp.
  apply (grid_set_state_shape _ _ _ _ Hs) in Hgr1.
  destruct (is_sentinel (parent_position tmp_cell')).
  - by injection H as <-.
  - by eapply IH.
Qed.

Lemma draw_path_shape gr current_cell gr' :
  grid_shape gr → draw_path gr current_cell = Ok gr' → grid_shape gr'.
Proof.
  intros Hs H. unfold draw_path in H. inv_bind_as H w Hw. injection H as <-.
  unfold draw_path_walk in Hw. inv_bind_as Hw tmp Htmp.
  by eapply draw_path_loop_shape.
Qed.

Lemma create_barriers_loop_shape rs gr n_created n_barriers gr' :
  grid_shape gr →
  create_barriers_loop rs gr n_created n_barriers = Some (Ok gr') →
  grid_shape gr'.
Proof.
  remember (length rs) as k eqn:Hk. revert rs Hk gr n_created.
  induction k as [k IH] using lt_wf_ind. intros rs Hk gr n_created Hs H.
  destruct rs as [ | r1 [ | r2 rs]]; simpl in H;
    destruct (n_created <? n_barriers);
    try discriminate H; try (injection H as <-; done).
  set (p0 := Pos (Z.rem r1 CELL_COUNT) (Z.rem r2 CELL_COUNT)) in *.
  destruct (grid_get gr p0) as [c0 | ]; [ | discriminate H].
  destruct (negb (state_eqb (state c0) CELL_START)
            && negb (state_eqb (state c0) CELL_TARGET)).
  - destruct (grid_set_state gr p0 CELL_BARRIER) as [gr1 | ] eqn:Hgr1;
      [ | discriminate H].
    apply (IH (length rs)) in H; [done | simpl in Hk; lia | done | ].
    by eapply grid_set_state_shape.
  - apply (IH (length rs)) in H; [done | simpl in Hk; lia | done | done].
Qed.

Lemma explored_insert_snoc (closed : list Cell_Typedef) (count : Z) c :
  0 <= count < Z.of_nat (length closed) →
  take (Z.to_nat (count + 1)) (<[Z.to_nat count := c]> closed)
  = take (Z.to_nat count) closed ++ [c].
Proof.
  intros Hc.
  replace (Z.to_nat (count + 1)) with (S (Z.to_nat count)) by lia.
  erewrite take_S_r by (apply list_lookup_insert_eq; lia).
  by rewrite take_insert_ge.
Qed.

Lemma admitted_cell_ok current_cell nc neighbour :
  entry_ok current_cell →
  out_of_grid neighbour = false →
  entry_ok (admitted_cell current_cell nc neighbour
                          (tentative_g current_cell neighbour)).
Proof.
  intros (_ & _ & _ & Hg) Hout. unfold entry_ok, admitted_cell, tentative_g.
  simpl. repeat split; try done.
  unfold g in *. rewrite !compute_distance_eq in *.
  unfold START_X, START_Y in *. lia.
Qed.

Lemma take_current_arrays s current_cell s1 :
  arrays_inv s →
  take_current s = Ok (Some (current_cell, s1)) →
  arrays_inv s1 ∧ entry_ok current_cell.
Proof.
  intros (Hql & Hqi & Hcl & Hcc & Hgs & Hqe & Hce) H.
  apply take_current_Some in H
    as (Hidx & Hcur & Hcount & Hq1 & Hn1 & Hc1 & _ & c & Hc & Hgrid).
  pose proof (live_snoc _ _ _ Hidx Hcur) as Hlive.
  destruct (open_nodes_queue s) as [cs i] eqn:Hq. simpl in *.
  rewrite Hlive in Hqe. apply Forall_app in Hqe as [Hqe1 Hcur_ok].
  rewrite Forall_singleton in Hcur_ok.
  split; [ | done].
  unfold arrays_inv, explored. rewrite Hq1, Hn1, Hc1. simpl.
  rewrite length_insert, explored_insert_snoc by done.
  split; [done | ]. split; [lia | ]. split; [done | ]. split; [lia | ].
  split.
  { destruct Hgrid as [[_ ->] | [_ Hset]]; [done | ].
    by eapply grid_set_state_shape. }
  split; [done | ]. apply Forall_app. split; [done | ].
  by rewrite Forall_singleton.
Qed.

Lemma visit_neighbour_arrays current_cell s neighbour r :
  arrays_inv s → entry_ok current_cell →
  visit_neighbour current_cell s neighbour = Ok r →
  arrays_inv (flow_state r).
Proof.
  intros Hinv Hcur H. pose proof Hinv as (Hql & Hqi & Hcl & Hcc & Hgs & Hqe & Hce).
  apply visit_neighbour_cases in H
    as [-> | [(nc & gr' & _ & _ & _ & Hdraw & ->)
             | (nc & gr' & queue' & Hout & _ & _ & _ & _ & Hset & Hq & ->)]];
    simpl; [done | | ].
  - unfold arrays_inv, explored. simpl.
    repeat (split; [done | ]). split; [by eapply draw_path_shape | done].
  - unfold arrays_inv, explored. simpl.
    apply (grid_set_shape _ _ _ _ Hgs) in Hset.
    apply enqueue_Ok in Hq as [[_ ->] | (_ & Hi & Hlen & Hq' & Hlive)].
    { repeat (split; [done | ]). done. }
    rewrite Hlive. rewrite Hq'. simpl. rewrite length_insert.
    split; [done | ]. split; [lia | ].
    repeat (split; [done | ]).
    split; [ | done]. apply Forall_app. split; [done | ].
    rewrite Forall_singleton. by apply admitted_cell_ok.
Qed.

Lemma qsort_queue_arrays sort s queue2 :
  qsort_conforming sort → arrays_inv s →
  qsort_queue sort (open_nodes_queue s) = Ok queue2 →
  arrays_inv (MkState (grid s) queue2 (closed_nodes_count s) (closed_nodes s)
                      (found_target s)).
Proof.
  intros Hsort (Hql & Hqi & Hcl & Hcc & Hgs & Hqe & Hce) H.
  pose proof (qsort_queue_live _ _ _ Hsort H) as Hperm.
  unfold arrays_inv, explored. simpl. rewrite Hperm.
  unfold qsort_queue in H.
  destruct ((0 <=? idx (open_nodes_queue s) + 1)
            && (idx (open_nodes_queue s) + 1
                <=? Z.of_nat (length (cells (open_nodes_queue s)))));
    [ | discriminate H].
  injection H as <-. simpl.
  destruct (Hsort (take (Z.to_nat (idx (open_nodes_queue s) + 1))
                        (cells (open_nodes_queue s)))) as [Hp _].
  rewrite length_app, Hp, <- length_app, take_drop.
  repeat (split; [done | ]). done.
Qed.

Lemma a_star_with_arrays sort s s' :
  qsort_conforming sort → arrays_inv s → a_star_with sort s = Ok s' →
  arrays_inv s'.
Proof.
  intros Hsort Hinv H.
  destruct (found_target s) eqn:Hf.
  { unfold a_star_with in H. rewrite Hf in H. by injection H as <-. }
  apply (a_star_with_rule
           (λ cur s1, arrays_inv s1 ∧ entry_ok cur) arrays_inv sort s s');
    try done.
  - intros cur s1. by apply take_current_arrays.
  - intros cur s1 n r [Hi Hc] _ Hv.
    pose proof (visit_neighbour_arrays _ _ _ _ Hi Hc Hv) as Hr.
    by destruct r.
  - intros cur s2 queue2 [Hi _]. by apply qsort_queue_arrays.
Qed.

Lemma start_cell_ok : entry_ok start_cell.
Proof. unfold entry_ok. by vm_compute. Qed.

Lemma main_setup_arrays rs s : main_setup rs = Some (Ok s) → arrays_inv s.
Proof.
  unfold main_setup. intros H.
  destruct (main_cells initial_state) as [s0 | ] eqn:Hs0; [ | discriminate H].
  destruct (create_barriers 1000 rs (grid s0)) as [[gr | ] | ] eqn:Hgr;
    try discriminate H.
  injection H as <-.
  unfold main_cells in Hs0.
  inv_bind_as Hs0 gr1 Hgr1. inv_bind_as Hs0 queue1 Hqueue1.
  inv_bind_as Hs0 t Ht. inv_bind_as Hs0 gr2 Hgr2. injection Hs0 as <-.
  cbn [grid open_nodes_queue closed_nodes closed_nodes_count found_target
       initial_state] in *.
  apply enqueue_Ok in Hqueue1 as [[Hfull _] | (_ & _ & _ & Hq1 & Hlive)];
    [discriminate Hfull | ].
  unfold arrays_inv, explored.
  cbn [grid open_nodes_queue closed_nodes closed_nodes_count].
  rewrite Hlive, Hq1. cbn [cells idx].
  rewrite length_insert, !length_replicate.
  split; [done | ]. split; [done | ]. split; [done | ]. split; [done | ].
  split.
  { eapply create_barriers_loop_shape; [ | exact Hgr].
    eapply grid_set_shape; [ | exact Hgr2].
    eapply grid_set_shape; [ | exact Hgr1]. apply initial_grid_shape. }
  split; [ | by constructor].
  change (Forall entry_ok [start_cell]).
  rewrite Forall_singleton. apply start_cell_ok.
Qed.

Lemma reachable_arrays s : reachable s → arrays_inv s.
Proof.
  induction 1 as [rs s Hs | s s' _ IH (sort & Hsort & Hstep)].
  - by eapply main_setup_arrays.
  - by eapply a_star_with_arrays.
Qed.

(** X12.  In every state the program reaches, the queue array and the closed
    array have their [QUEUE_SIZE] slots and the grid its [CELL_COUNT] rows of
    [CELL_COUNT] cells, the top index lies in [-1 .. QUEUE_SIZE - 1] and the
    closed count in [0 .. QUEUE_SIZE]; the queue holds [idx + 1] entries and
    the closed array [closed_nodes_count] records. *)
Theorem reachable_counters (s : State) :
  reachable s →
  length (cells (open_nodes_queue s)) = Z.to_nat QUEUE_SIZE
  ∧ length (closed_nodes s) = Z.to_nat QUEUE_SIZE
  ∧ grid_shape (grid s)
  ∧ -1 <= idx (open_nodes_queue s) < QUEUE_SIZE
  ∧ 0 <= closed_nodes_count s <= QUEUE_SIZE
  ∧ Z.of_nat (length (live (open_nodes_queue s))) = idx (open_nodes_queue s) + 1
  ∧ Z.of_nat (length (explored s)) = closed_nodes_count s.
Proof.
  intros Hr. destruct (reachable_arrays s Hr)
    as (Hql & Hqi & Hcl & Hcc & Hgs & _ & _).
  repeat (split; [done || lia | ]).
  unfold live, explored. rewrite !length_take. lia.
Qed.

Lemma reachable_counters_witness :
  length (cells (open_nodes_queue pocket_state_1)) = Z.to_nat QUEUE_SIZE
  ∧ length (closed_nodes pocket_state_1) = Z.to_nat QUEUE_SIZE
  ∧ grid_shape (grid pocket_state_1)
  ∧ -1 <= idx (open_nodes_queue pocket_state_1) < QUEUE_SIZE
  ∧ 0 <= closed_nodes_count pocket_state_1 <= QUEUE_SIZE
  ∧ Z.of_nat (length (live (open_nodes_queue pocket_state_1)))
    = idx (open_nodes_queue pocket_state_1) + 1
  ∧ Z.of_nat (length (explored pocket_state_1))
    = closed_nodes_count pocket_state_1.
Proof.
  apply (reachable_counters pocket_state_1).
  apply (state_after_reachable pocket_rands 1). vm_compute. reflexivity.
Defined.

(** X13.  In every state the program reaches, the coordinate of every queue
    entry and of every closed record lies inside the grid, so that the grid
    cell [a_star] reads for a popped entry exists. *)
Theorem reachable_entries_in_grid (s : State) :
  reachable s →
  ∀ e, e ∈ live (open_nodes_queue s) ∨ e ∈ explored s →
       (0 <= x (position e) < CELL_COUNT ∧ 0 <= y (position e) < CELL_COUNT)
       ∧ ∃ c, grid_get (grid s) (position e) = Ok c.
Proof.
  intros Hr e He. destruct (reachable_arrays s Hr)
    as (_ & _ & _ & _ & Hgs & Hqe & Hce).
  rewrite Forall_forall in Hqe, Hce.
  assert (Hok : entry_ok e) by (destruct He; auto).
  destruct Hok as (Hout & _). split; [ | by apply grid_get_shape].
  unfold out_of_grid in Hout.
  apply orb_false_iff in Hout as [Hout Hy2].
  apply orb_false_iff in Hout as [Hout Hy1].
  apply orb_false_iff in Hout as [Hx1 Hx2].
  apply Z.ltb_ge in Hx1, Hy1.
  destruct (Z.gtb_spec (x (position e)) (CELL_COUNT - 1)); [done | ].
  destruct (Z.gtb_spec (y (position e)) (CELL_COUNT - 1)); [done | ].
  lia.
Qed.

Lemma reachable_entries_in_grid_witness :
  (start_cell ∈ live (open_nodes_queue pocket_state_1)
   ∨ start_cell ∈ explored pocket_state_1)
  ∧ (0 <= x (position start_cell) < CELL_COUNT
     ∧ 0 <= y (position start_cell) < CELL_COUNT)
  ∧ ∃ c, grid_get (grid pocket_state_1) (position start_cell) = Ok c.
Proof.
  assert (He : start_cell ∈ live (open_nodes_queue pocket_state_1)
               ∨ start_cell ∈ explored pocket_state_1).
  { right. assert (H : explored pocket_state_1 = [start_cell])
      by (vm_compute; reflexivity).
    rewrite H. constructor. }
  split; [exact He | ].
  apply (reachable_entries_in_grid pocket_state_1); [ | exact He].
  apply (state_after_reachable pocket_rands 1). vm_compute. reflexivity.
Defined.

(** X14.  In every state the program reaches, every queue entry and every
    closed record carries the heuristic of its own coordinate as [h_cost]
    and the sum of [g_cost] and that heuristic as [cost], and its [g_cost]
    is never below the straight-line start distance [g] that the admission
    test compares with. *)
Theorem reachable_entry_costs (s : State) :
  reachable s →
  ∀ e, e ∈ live (open_nodes_queue s) ∨ e ∈ explored s →
       h_cost e = h (x (position e)) (y (position e))
       ∧ cost e = g_cost e + h (x (position e)) (y (position e))
       ∧ g (x (position e)) (y (position e)) <= g_cost e.
Proof.
  intros Hr e He. destruct (reachable_arrays s Hr)
    as (_ & _ & _ & _ & _ & Hqe & Hce).
  rewrite Forall_forall in Hqe, Hce.
  assert (Hok : entry_ok e) by (destruct He; auto).
  destruct Hok as (_ & Hh & Hc & Hg). rewrite <- Hh. done.
Qed.

Lemma reachable_entry_costs_witness :
  (cell_4_8 ∈ live (open_nodes_queue pocket_state_1)
   ∨ cell_4_8 ∈ explored pocket_state_1)
  ∧ h_cost cell_4_8 = h (x (position cell_4_8)) (y (position cell_4_8))
  ∧ cost cell_4_8
    = g_cost cell_4_8 + h (x (position cell_4_8)) (y (position cell_4_8))
  ∧ g (x (position cell_4_8)) (y (position cell_4_8)) <= g_cost cell_4_8.
Proof.
  assert (He : cell_4_8 ∈ live (open_nodes_queue pocket_state_1)
               ∨ cell_4_8 ∈ explored pocket_state_1).
  { left. assert (H : last (live (open_nodes_queue pocket_state_1))
                      = Some cell_4_8) by (vm_compute; reflexivity).
    apply last_Some in H as [l ->]. apply elem_of_app. right. constructor. }
  split; [exact He | ].
  apply (reachable_entry_costs pocket_state_1); [ | exact He].
  apply (state_after_reachable pocket_rands 1). vm_compute. reflexivity.
Defined.

(** X15.  In every state the program reaches with the target not yet found
    and the queue not empty, [pop] succeeds and the entry it returns, the one
    the next call of [a_star] expands, has the least [cost] of all entries of
    the queue. *)
Theorem reachable_pop_cheapest (s : State) :
  reachable s →
  found_target s = false →
  is_empty (open_nodes_queue s) = false →
  ∃ c, pop (open_nodes_queue s)
       = Ok (Queue (cells (open_nodes_queue s)) (idx (open_nodes_queue s) - 1),
             Some c)
       ∧ c ∈ live (open_nodes_queue s)
       ∧ ∀ e, e ∈ live (open_nodes_queue s) → cost c <= cost e.
Proof.
  intros Hr Hf Hne.
  pose proof (reachable_queue_sorted s Hr Hf) as Hsorted.
  destruct (reachable_arrays s Hr) as (Hql & Hqi & _).
  set (q := open_nodes_queue s) in *.
  unfold is_empty in Hne. apply Z.ltb_ge in Hne.
  destruct (lookup_lt_is_Some_2 (cells q) (Z.to_nat (idx q))) as [c Hc]; [lia | ].
  pose proof (live_snoc (cells q) (idx q) c Hne Hc) as Hlive.
  assert (Hq : Queue (cells q) (idx q) = q) by (by destruct q).
  rewrite Hq in Hlive.
  exists c. split; [ | split].
  - unfold pop, is_empty. destruct (Z.ltb_spec (idx q) 0); [lia | ].
    assert (array_get ARR_QUEUE (cells q) (idx q) = Ok c) as ->; [ | done].
    by apply array_get_Ok.
  - rewrite Hlive. apply elem_of_app. right. by apply list_elem_of_singleton.
  - intros e He. rewrite Hlive in He, Hsorted.
    apply elem_of_app in He as [He | He].
    + apply compare_cell_cost_le0.
      eapply (StronglySorted_app_1_elem_of
                (λ a b, compare_cell_cost a b <= 0)); [exact Hsorted | done | ].
      by apply list_elem_of_singleton.
    + apply list_elem_of_singleton in He as ->. lia.
Qed.

Lemma reachable_pop_cheapest_witness :
  ∃ c, pop (open_nodes_queue pocket_state_1)
       = Ok (Queue (cells (open_nodes_queue pocket_state_1))
                   (idx (open_nodes_queue pocket_state_1) - 1), Some c)
       ∧ c ∈ live (open_nodes_queue pocket_state_1)
       ∧ ∀ e, e ∈ live (open_nodes_queue pocket_state_1) → cost c <= cost e.
Proof.
  apply (reachable_pop_cheapest pocket_state_1).
  - apply (state_after_reachable pocket_rands 1). vm_compute. reflexivity.
  - vm_compute. reflexivity.
  - vm_compute. reflexivity.
Defined.

(** ** Barriers stay, and the path runs over explored cells *)

Lemma barriers_same_refl gr : barriers_same gr gr.
Proof. by intros p c _. Qed.

Lemma barriers_same_trans gr1 gr2 gr3 :
  barriers_same gr1 gr2 → barriers_same gr2 gr3 → barriers_same gr1 gr3.
Proof. intros H12 H23 p c Hc. by rewrite (H12 p c Hc), (H23 p c Hc). Qed.

Lemma grid_set_barriers_same gr gr' p c :
  grid_set gr p c = Ok gr' → state c ≠ CELL_BARRIER → off_barrier gr p →
  barriers_same gr gr'.
Proof.
  intros Hset Hc Hoff q cq Hcq.
  destruct (decide (q = p)) as [-> | Hne].
  - rewrite (grid_get_set_eq _ _ _ _ Hset). split.
    + intros Hq. by destruct (Hoff _ Hq).
    + intros [= <-]. done.
  - by rewrite (grid_get_set_ne _ _ _ _ _ Hset Hne).
Qed.

Lemma grid_set_state_barriers_same gr gr' p st :
  grid_set_state gr p st = Ok gr' → st ≠ CELL_BARRIER → off_barrier gr p →
  barriers_same gr gr'.
Proof.
  unfold grid_set_state. intros H Hst Hoff. inv_bind_as H c Hc.
  by eapply grid_set_barriers_same.
Qed.

Lemma grid_set_off_barrier gr gr' p c q :
  grid_set gr p c = Ok gr' → state c ≠ CELL_BARRIER →
  off_barrier gr q → off_barrier gr' q.
Proof.
  intros Hset Hc Hoff cq Hcq.
  destruct (decide (q = p)) as [-> | Hne].
  - rewrite (grid_get_set_eq _ _ _ _ Hset) in Hcq. by injection Hcq as <-.
  - rewrite (grid_get_set_ne _ _ _ _ _ Hset Hne) in Hcq. by apply Hoff.
Qed.

Lemma grid_set_state_off_barrier gr gr' p st q :
  grid_set_state gr p st = Ok gr' → st ≠ CELL_BARRIER →
  off_barrier gr q → off_barrier gr' q.
Proof.
  unfold grid_set_state. intros H Hst Hoff. inv_bind_as H c Hc.
  by eapply grid_set_off_barrier.
Qed.

Lemma grid_set_no_path gr gr' p c :
  grid_set gr p c = Ok gr' → state c ≠ CELL_PATH → no_path gr → no_path gr'.
Proof.
  intros Hset Hc Hno q cq Hcq.
  destruct (decide (q = p)) as [-> | Hne].
  - rewrite (grid_get_set_eq _ _ _ _ Hset) in Hcq. by injection Hcq as <-.
  - rewrite (grid_get_set_ne _ _ _ _ _ Hset Hne) in Hcq. by eapply Hno.
Qed.

Lemma grid_set_state_no_path gr gr' p st :
  grid_set_state gr p st = Ok gr' → st ≠ CELL_PATH → no_path gr → no_path gr'.
Proof.
  unfold grid_set_state. intros H Hst Hno. inv_bind_as H c Hc.
  by eapply grid_set_no_path.
Qed.

(** The walk of [draw_path] changes cells only by marking them, and marks
    the cells it lists. *)
Lemma draw_path_loop_frame (n : nat) gr tmp_cell force_stop marked w :
  draw_path_loop n gr tmp_cell force_stop marked = Ok w →
  ∃ new, walk_marked w = marked ++ new
    ∧ ∀ p, (is_path (walk_grid w) p → is_path gr p ∨ p ∈ new)
           ∧ ∀ c, grid_get gr p = Ok c →
                  grid_get (walk_grid w) p = Ok c
                  ∨ (p ∈ new ∧ grid_get (walk_grid w) p = Ok (set_state c CELL_PATH)).
Proof.
  revert gr tmp_cell force_stop marked.
  induction n as [ | n IH]; intros gr tmp_cell force_stop marked H; simpl in H.
  { injection H as <-. exists []. simpl. rewrite app_nil_r.
    split; [done | ]. intros p. split; [by left | by left]. }
  inv_bind_as H gr1 Hgr1. inv_bind_as H tmp_cell' Htmp.
  assert (Hstep : ∀ p,
    (is_path gr1 p → is_path gr p ∨ p = position tmp_cell)
    ∧ ∀ c, grid_get gr p = Ok c →
           grid_get gr1 p = Ok c
           ∨ (p = position tmp_cell
              ∧ grid_get gr1 p = Ok (set_state c CELL_PATH))).
  { intros p. destruct (decide (p = position tmp_cell)) as [-> | Hne].
    - split; [by right | ]. intros c Hc. right. split; [done | ].
      apply grid_set_state_get_eq in Hgr1 as (c0 & Hc0 & Hc1). congruence.
    - rewrite (grid_set_state_get_ne _ _ _ _ _ Hgr1 Hne) by done.
      split; [ | by left]. intros (c & Hc & Hst). left. exists c.
      by rewrite <- (grid_set_state_get_ne _ _ _ _ _ Hgr1 Hne). }
  destruct (is_sentinel (parent_position tmp_cell')).
  - injection H as <-. simpl. exists [position tmp_cell].
    split; [done | ]. intros p. destruct (Hstep p) as [Hp Hc]. split.
    + intros Hpath. destruct (Hp Hpath) as [ | ->]; [by left | right].
      by apply list_elem_of_singleton.
    + intros c Hcp. destruct (Hc c Hcp) as [ | [-> Hset]]; [by left | right].
      split; [by apply list_elem_of_singleton | done].
  - apply IH in H as (new & Hm & Hframe).
    exists (position tmp_cell :: new). rewrite Hm, <- app_assoc.
    split; [done | ]. intros p.
    destruct (Hstep p) as [Hp Hc], (Hframe p) as [Hp' Hc']. split.
    + intros Hpath. destruct (Hp' Hpath) as [Hp1 | Hin].
      * destruct (Hp Hp1) as [ | ->]; [by left | right]. by left.
      * right. by right.
    + intros c Hcp. destruct (Hc c Hcp) as [Hsame | [-> Hset]].
      * destruct (Hc' c Hsame) as [ | [Hin Hset']]; [by left | right].
        split; [by right | done].
      * right. split; [by left | ].
        destruct (Hc' _ Hset) as [ | [_ Hset']]; [done | ].
        by destruct c.
Qed.

(** Under the invariant of the search, the walk marks closed coordinates
    only. *)
Lemma draw_path_loop_on_closed C (n : nat) gr tmp_cell force_stop marked w :
  start_intact gr →
  (∀ p, p ∈ C → admitted gr C p) →
  position tmp_cell ∈ C →
  position tmp_cell ≠ start_position →
  parent_position tmp_cell ∈ C →
  draw_path_loop n gr tmp_cell force_stop marked = Ok w →
  ∀ p, p ∈ walk_marked w → p ∈ marked ∨ p ∈ C.
Proof.
  revert gr tmp_cell force_stop marked.
  induction n as [ | n IH];
    intros gr tmp_cell force_stop marked Hs HC Hpos Hns Hpar H p Hp; simpl in H.
  { injection H as <-. by left. }
  inv_bind_as H gr1 Hgr1. inv_bind_as H tmp_cell' Htmp.
  assert (Hs1 : start_intact gr1) by (by eapply start_intact_set_state).
  assert (HC1 : ∀ p, p ∈ C → admitted gr1 C p).
  { intros q Hq. eapply admitted_set_state; [done | done | by apply HC]. }
  assert (Hlast : ∀ q, q ∈ marked ++ [position tmp_cell] → q ∈ marked ∨ q ∈ C).
  { intros q [Hq | Hq%list_elem_of_singleton]%elem_of_app;
      [by left | right; by subst]. }
  destruct (is_sentinel (parent_position tmp_cell')) eqn:Hsent.
  { injection H as <-. by apply Hlast. }
  destruct (HC1 _ Hpar) as (_ & c & Hc & Hcpos & Hcpar).
  assert (c = tmp_cell') as -> by congruence.
  assert (Hne : parent_position tmp_cell ≠ start_position).
  { intros Heq. destruct Hs1 as (c0 & Hc0 & _ & _ & Hsp).
    rewrite Heq in Htmp. assert (c0 = tmp_cell') as -> by congruence.
    apply is_sentinel_true in Hsp. congruence. }
  assert (Hpar' : parent_position tmp_cell' ∈ C)
    by (destruct Hcpar; [contradiction | done]).
  destruct (IH gr1 tmp_cell' (force_stop + 1) (marked ++ [position tmp_cell])
              Hs1 HC1 ltac:(by rewrite Hcpos) ltac:(by rewrite Hcpos)
              Hpar' H p Hp) as [Hq | Hq]; [by apply Hlast | by right].
Qed.

Lemma draw_path_loop_first (n : nat) gr tmp_cell force_stop marked w :
  draw_path_loop (S n) gr tmp_cell force_stop marked = Ok w →
  position tmp_cell ∈ walk_marked w.
Proof.
  intros H. simpl in H. inv_bind_as H gr1 Hgr1. inv_bind_as H tmp_cell' Htmp.
  assert (Hin : position tmp_cell ∈ marked ++ [position tmp_cell]).
  { apply elem_of_app. right. by apply list_elem_of_singleton. }
  destruct (is_sentinel (parent_position tmp_cell')).
  - by injection H as <-.
  - apply draw_path_loop_spec in H as (new & -> & _).
    apply elem_of_app. by left.
Qed.

Lemma grid_set_get_back gr gr' p c q cq :
  grid_set gr p c = Ok gr' → grid_get gr' q = Ok cq →
  ∃ c0, grid_get gr q = Ok c0.
Proof.
  intros Hset Hq. destruct (decide (q = p)) as [-> | Hne].
  - unfold grid_set in Hset. inv_bind_as Hset row Hrow.
    inv_bind_as Hset row' Hrow'.
    apply array_set_Ok in Hrow' as [Hy _].
    destruct (lookup_lt_is_Some_2 row (Z.to_nat (y p))) as [c0 Hc0]; [lia | ].
    exists c0. unfold grid_get. rewrite Hrow. simpl.
    apply array_get_Ok. split; [lia | done].
  - exists cq. by rewrite <- (grid_get_set_ne _ _ _ _ _ Hset Hne).
Qed.

Lemma draw_path_loop_back (n : nat) gr tmp_cell force_stop marked w q cq :
  draw_path_loop n gr tmp_cell force_stop marked = Ok w →
  grid_get (walk_grid w) q = Ok cq → ∃ c0, grid_get gr q = Ok c0.
Proof.
  revert gr tmp_cell force_stop marked.
  induction n as [ | n IH]; intros gr tmp_cell force_stop marked H Hq;
    simpl in H.
  { injection H as <-. by exists cq. }
  inv_bind_as H gr1 Hgr1. inv_bind_as H tmp_cell' Htmp.
  assert (Hback : ∀ c1, grid_get gr1 q = Ok c1 → ∃ c0, grid_get gr q = Ok c0).
  { intros c1 Hc1. unfold grid_set_state in Hgr1. inv_bind_as Hgr1 c Hc.
    by eapply grid_set_get_back. }
  destruct (is_sentinel (parent_position tmp_cell')).
  - injection H as <-. by eapply Hback.
  - destruct (IH _ _ _ _ H Hq) as [c1 Hc1]. by eapply Hback.
Qed.

(** What [draw_path] does when [a_star] calls it. *)
Lemma draw_path_effect current_cell s gr' :
  loop_inv current_cell s →
  barrier_inv s →
  no_path (grid s) →
  position current_cell ≠ start_position →
  draw_path (grid s) current_cell = Ok gr' →
  barriers_same (grid s) gr'
  ∧ (∀ q, off_barrier (grid s) q → off_barrier gr' q)
  ∧ is_path gr' (position current_cell)
  ∧ ∀ p, is_path gr' p → p ∈ closed_positions s.
Proof.
  intros ([Hst Htg Hot Hcl Hqu Hseed] & Hfound & Hcur & Hstart) [_ Hbar] Hno
         Hns H.
  unfold draw_path in H. inv_bind_as H w Hw. injection H as <-.
  unfold draw_path_walk in Hw. inv_bind_as Hw tmp Htmp.
  destruct (Hcl _ Hcur) as (_ & c & Hc & Hcpos & Hcpar).
  assert (c = tmp) as -> by congruence.
  assert (Hpar : parent_position tmp ∈ closed_positions s)
    by (destruct Hcpar; [contradiction | done]).
  change (Z.to_nat (1000 - 0)) with (S 999) in Hw.
  pose proof (draw_path_loop_first _ _ _ _ _ _ Hw) as Hfirst.
  pose proof (draw_path_loop_marks _ _ _ _ _ _ Hw) as Hmarks.
  pose proof (draw_path_loop_on_closed (closed_positions s) _ _ _ _ _ _
                Hst Hcl ltac:(by rewrite Hcpos) ltac:(by rewrite Hcpos)
                Hpar Hw) as Hon.
  pose proof (λ q cq, draw_path_loop_back _ _ _ _ _ _ q cq Hw) as Hback.
  destruct (draw_path_loop_frame _ _ _ _ _ _ Hw) as (new & Hm & Hframe).
  simpl in Hm.
  assert (Hnew : ∀ p, p ∈ new → p ∈ closed_positions s).
  { intros p Hp. rewrite <- Hm in Hp.
    destruct (Hon p Hp) as [Hnil | ]; [by apply not_elem_of_nil in Hnil | done]. }
  assert (Hoff : ∀ p, p ∈ new → off_barrier (grid s) p).
  { intros p Hp. apply Hnew in Hp. unfold closed_positions in Hp.
    apply list_elem_of_fmap in Hp as (e & -> & He). by apply Hbar. }
  split; [ | split; [ | split]].
  - intros p cb Hcb. destruct (Hframe p) as [_ Hfr]. split.
    + intros Hp. destruct (Hfr _ Hp) as [ | [Hin _]]; [done | ].
      by destruct (Hoff p Hin _ Hp).
    + intros Hp. destruct (Hback _ _ Hp) as [c0 Hc0].
      destruct (Hfr _ Hc0) as [Hsame | [_ Hset]]; [congruence | ].
      rewrite Hp in Hset. injection Hset as ->. discriminate Hcb.
  - intros q Hq cq Hcq. destruct (Hback _ _ Hcq) as [c0 Hc0].
    destruct (Hframe q) as [_ Hfr].
    destruct (Hfr _ Hc0) as [Hsame | [_ Hset]].
    + assert (cq = c0) as -> by congruence. by apply Hq.
    + rewrite Hcq in Hset. by injection Hset as ->.
  - rewrite <- Hcpos. apply Hmarks; [ | done].
    intros p Hp. by apply not_elem_of_nil in Hp.
  - intros p Hp. destruct (Hframe p) as [Hfr _].
    destruct (Hfr Hp) as [(c0 & Hc0 & Hs0) | Hin]; [ | by apply Hnew].
    by destruct (Hno _ _ Hc0).
Qed.

Lemma take_current_path s current_cell s1 :
  search_inv s → found_target s = false →
  barrier_inv s → no_path (grid s) →
  take_current s = Ok (Some (current_cell, s1)) →
  path_loop_inv s current_cell s1.
Proof.
  intros Hsi Hf [Hbq Hbc] Hno H.
  pose proof (take_current_inv _ _ _ Hsi Hf H) as Hloop.
  apply take_current_Some in H
    as (Hidx & Hcur & Hcount & Hq1 & Hn1 & Hc1 & _ & c & Hc & Hgrid).
  pose proof (live_snoc _ _ _ Hidx Hcur) as Hlive.
  assert (Hq : Queue (cells (open_nodes_queue s)) (idx (open_nodes_queue s))
               = open_nodes_queue s) by (by destruct (open_nodes_queue s)).
  rewrite Hq in Hlive.
  assert (Hexp : explored s1 = explored s ++ [current_cell]).
  { unfold explored at 1. rewrite Hn1, Hc1. by apply explored_insert_snoc. }
  assert (Hcur_off : off_barrier (grid s) (position current_cell)).
  { apply Hbq. rewrite Hlive. apply elem_of_app. right.
    by apply list_elem_of_singleton. }
  assert (Hgr : barriers_same (grid s) (grid s1)
                ∧ no_path (grid s1)
                ∧ ∀ q, off_barrier (grid s) q → off_barrier (grid s1) q).
  { destruct Hgrid as [[_ ->] | [_ Hset]].
    - split; [apply barriers_same_refl | done].
    - split; [by eapply grid_set_state_barriers_same | ].
      split; [by eapply grid_set_state_no_path | ].
      intros q Hq0. by eapply grid_set_state_off_barrier. }
  destruct Hgr as (Hsame & Hno1 & Hoff).
  split; [done | ]. split; [ | split; [done | split; [done | by eexists]]].
  split.
  - intros e He. apply Hoff, Hbq. rewrite Hlive, <- Hq1.
    apply elem_of_app. by left.
  - intros e He. rewrite Hexp in He. apply Hoff.
    apply elem_of_app in He as [He | ->%list_elem_of_singleton]; auto.
Qed.

Lemma adjacent_sym p q : adjacent p q → adjacent q p.
Proof. unfold adjacent. lia. Qed.

Lemma visit_neighbour_path s current_cell s1 neighbour r :
  path_loop_inv s current_cell s1 →
  adjacent neighbour (position current_cell) →
  visit_neighbour current_cell s1 neighbour = Ok r →
  match r with
  | Next s2 => path_loop_inv s current_cell s2
  | Return s2 => path_inv s2 ∧ barriers_same (grid s) (grid s2)
  end.
Proof.
  intros Hinv Hadj H.
  pose proof Hinv as (Hloop & [Hbq Hbc] & Hno & Hsame & l & Hexp).
  pose proof (visit_neighbour_inv _ _ _ _ Hloop Hadj H) as Hloop'.
  apply visit_neighbour_cases in H
    as [-> | [(nc & gr' & Hout & Hnc & Htarget & Hdraw & ->)
             | (nc & gr' & queue' & Hout & Hnc & Hnt & Hnb & _ & Hset & Hq
                & ->)]].
  - exact Hinv.
  - assert (Hns : position current_cell ≠ start_position).
    { destruct Hloop as ([_ _ Hot _ _ _] & _).
      assert (neighbour = target_position) as -> by (by eapply Hot).
      intros Heq. rewrite Heq in Hadj. destruct Hadj as [Hx _].
      vm_compute in Hx. by apply Hx. }
    assert (Hnt : neighbour = target_position).
    { destruct Hloop as ([_ _ Hot _ _ _] & _). by eapply Hot. }
    destruct (draw_path_effect _ _ _ Hloop (conj Hbq Hbc) Hno Hns Hdraw)
      as (Hsame' & Hoff & Hpath & Hon).
    split; [ | by eapply barriers_same_trans].
    split; [ | split].
    + split; simpl; intros e He; apply Hoff; auto.
    + simpl. discriminate.
    + intros _. split; simpl.
      * exists l, current_cell. split; [done | ].
        split; [ | done]. apply adjacent_sym. by rewrite <- Hnt.
      * done.
  - set (nc' := admitted_cell current_cell nc neighbour
                              (tentative_g current_cell neighbour)) in *.
    assert (Hst : state nc' ≠ CELL_BARRIER ∧ state nc' ≠ CELL_PATH).
    { simpl. pose proof (Hno _ _ Hnc).
      by destruct (state_eqb (state nc) CELL_EMPTY). }
    destruct Hst as [Hnb' Hnp'].
    assert (Hoffn : off_barrier (grid s1) neighbour).
    { intros c Hc. congruence. }
    split; [done | ]. split; [ | split; [ | split; [ | by exists l]]].
    + split; simpl.
      * intros e He.
        apply enqueue_Ok in Hq as [[_ ->] | (_ & _ & _ & _ & Hlive)].
        { eapply grid_set_off_barrier; [done | done | by apply Hbq]. }
        rewrite Hlive in He.
        apply elem_of_app in He as [He | ->%list_elem_of_singleton].
        { eapply grid_set_off_barrier; [done | done | by apply Hbq]. }
        intros c Hc. simpl in Hc.
        rewrite (grid_get_set_eq _ _ _ _ Hset) in Hc. by injection Hc as <-.
      * intros e He. eapply grid_set_off_barrier; [done | done | by apply Hbc].
    + simpl. by eapply grid_set_no_path.
    + simpl. eapply barriers_same_trans; [done | ].
      by eapply grid_set_barriers_same.
Qed.

Lemma a_star_with_path sort s s' :
  qsort_conforming sort → reach_inv s → path_inv s →
  a_star_with sort s = Ok s' →
  path_inv s' ∧ barriers_same (grid s) (grid s').
Proof.
  intros Hsort [_ Hri] (Hbar & Hno & Hfi) H.
  destruct (found_target s) eqn:Hf.
  { unfold a_star_with in H. rewrite Hf in H. injection H as <-.
    split; [ | apply barriers_same_refl].
    split; [done | split; [by rewrite Hf | by rewrite Hf]]. }
  destruct (Hri eq_refl) as [Hsi _]. specialize (Hno eq_refl).
  apply (a_star_with_rule
           (path_loop_inv s)
           (λ s', path_inv s' ∧ barriers_same (grid s) (grid s')) sort s s');
    try done.
  - intros _. split; [ | apply barriers_same_refl].
    split; [done | split; [by rewrite Hf | by rewrite Hf]].
  - intros cur s1. by apply take_current_path.
  - intros cur s1 n r. apply visit_neighbour_path.
  - intros cur s2 queue2 (Hloop & [Hbq Hbc] & Hno2 & Hsame & _) Hq.
    destruct Hloop as (_ & Hf2 & _).
    split; [ | done]. split; [ | split]; simpl.
    + split; [ | done]. simpl. intros e He. apply Hbq.
      by rewrite <- (qsort_queue_live _ _ _ Hsort Hq).
    + done.
    + rewrite Hf2. discriminate.
Qed.

(** ** The barrier generator and the start of the program *)

(** [create_barriers] changes cells only by making them barriers, and never
    a start or target cell. *)
Lemma create_barriers_loop_frame rs gr n_created n_barriers gr' :
  create_barriers_loop rs gr n_created n_barriers = Some (Ok gr') →
  (∀ p c, grid_get gr p = Ok c →
     grid_get gr' p = Ok c
     ∨ (state c ≠ CELL_START ∧ state c ≠ CELL_TARGET
        ∧ grid_get gr' p = Ok (set_state c CELL_BARRIER)))
  ∧ (∀ p c', grid_get gr' p = Ok c' → ∃ c, grid_get gr p = Ok c).
Proof.
  remember (length rs) as k eqn:Hk. revert rs Hk gr n_created.
  induction k as [k IH] using lt_wf_ind. intros rs Hk gr n_created H.
  destruct rs as [ | r1 [ | r2 rs]]; simpl in H;
    destruct (n_created <? n_barriers);
    try discriminate H;
    try (injection H as <-; split; [by left | by eauto]).
  set (p0 := Pos (Z.rem r1 CELL_COUNT) (Z.rem r2 CELL_COUNT)) in *.
  destruct (grid_get gr p0) as [c0 | ] eqn:Hc0; [ | discriminate H].
  destruct (negb (state_eqb (state c0) CELL_START)
            && negb (state_eqb (state c0) CELL_TARGET)) eqn:Hguard.
  - destruct (grid_set_state gr p0 CELL_BARRIER) as [gr1 | ] eqn:Hgr1;
      [ | discriminate H].
    apply andb_true_iff in Hguard as [Hs%negb_true_iff Ht%negb_true_iff].
    apply state_eqb_neq in Hs, Ht.
    apply (IH (length rs)) in H as [Hfr Hback]; [ | simpl in Hk; lia | done].
    split.
    + intros p c Hc. destruct (decide (p = p0)) as [-> | Hne].
      * assert (c = c0) as -> by congruence.
        apply grid_set_state_get_eq in Hgr1 as (c1 & Hc1 & Hset).
        assert (c1 = c0) as -> by congruence.
        right. split; [done | ]. split; [done | ].
        destruct (Hfr _ _ Hset) as [ | (_ & _ & Hset')]; [done | ].
        by destruct c0.
      * apply Hfr. by rewrite (grid_set_state_get_ne _ _ _ _ _ Hgr1 Hne).
    + intros p c' Hc'. destruct (Hback _ _ Hc') as [c1 Hc1].
      unfold grid_set_state in Hgr1. inv_bind_as Hgr1 c Hc.
      by eapply grid_set_get_back.
  - apply (IH (length rs)) in H; [done | simpl in Hk; lia | done].
Qed.

(** What [main] has set up when it enters its loop. *)
Lemma main_setup_Some rs s :
  main_setup rs = Some (Ok s) →
  (∃ gr1 gr2,
      grid_set initial_grid start_position start_cell = Ok gr1
      ∧ grid_set gr1 target_position target_cell = Ok gr2
      ∧ create_barriers 1000 rs gr2 = Some (Ok (grid s)))
  ∧ live (open_nodes_queue s) = [start_cell]
  ∧ idx (open_nodes_queue s) = 0
  ∧ explored s = []
  ∧ closed_nodes_count s = 0
  ∧ found_target s = false.
Proof.
  unfold main_setup. intros H.
  destruct (main_cells initial_state) as [s0 | ] eqn:Hs0; [ | discriminate H].
  destruct (create_barriers 1000 rs (grid s0)) as [[gr | ] | ] eqn:Hgr;
    try discriminate H.
  injection H as <-.
  unfold main_cells in Hs0.
  inv_bind_as Hs0 gr1 Hgr1. inv_bind_as Hs0 queue1 Hqueue1.
  inv_bind_as Hs0 t Ht. inv_bind_as Hs0 gr2 Hgr2. injection Hs0 as <-.
  cbn [grid open_nodes_queue closed_nodes closed_nodes_count found_target
       initial_state] in *.
  assert (Hne : target_position ≠ start_position) by done.
  rewrite (grid_get_set_ne _ _ _ _ _ Hgr1 Hne) in Ht.
  apply initial_grid_get in Ht as ->.
  apply enqueue_Ok in Hqueue1 as [[Hfull _] | (_ & _ & _ & Hq1 & Hlive)];
    [discriminate Hfull | ].
  split; [by exists gr1, gr2 | ].
  split; [exact Hlive | ]. split; [by rewrite Hq1 | ]. done.
Qed.

Lemma main_setup_grid rs s p c :
  main_setup rs = Some (Ok s) →
  grid_get (grid s) p = Ok c →
  (p = start_position ∧ c = start_cell)
  ∨ (p = target_position ∧ c = target_cell)
  ∨ (p ≠ start_position ∧ p ≠ target_position
     ∧ (c = zero_cell ∨ c = set_state zero_cell CELL_BARRIER)).
Proof.
  intros Hs Hc.
  apply main_setup_Some in Hs as ((gr1 & gr2 & Hgr1 & Hgr2 & Hgr) & _).
  apply create_barriers_loop_frame in Hgr as [Hfr Hback].
  destruct (Hback _ _ Hc) as [c2 Hc2].
  assert (Hne : start_position ≠ target_position) by done.
  destruct (decide (p = target_position)) as [-> | Hpt].
  { right; left. split; [done | ].
    rewrite (grid_get_set_eq _ _ _ _ Hgr2) in Hc2. injection Hc2 as <-.
    destruct (Hfr _ _ (grid_get_set_eq _ _ _ _ Hgr2)) as [ | (_ & Ht & _)];
      [congruence | done]. }
  rewrite (grid_get_set_ne _ _ _ _ _ Hgr2 Hpt) in Hc2.
  destruct (decide (p = start_position)) as [-> | Hps].
  { left. split; [done | ].
    rewrite (grid_get_set_eq _ _ _ _ Hgr1) in Hc2. injection Hc2 as <-.
    assert (Hst2 : grid_get gr2 start_position = Ok start_cell).
    { rewrite (grid_get_set_ne _ _ _ _ _ Hgr2 Hne).
      by eapply grid_get_set_eq. }
    destruct (Hfr _ _ Hst2) as [ | (Hs & _)]; [congruence | done]. }
  rewrite (grid_get_set_ne _ _ _ _ _ Hgr1 Hps) in Hc2.
  apply initial_grid_get in Hc2 as ->.
  right; right. split; [done | ]. split; [done | ].
  assert (Hz : grid_get gr2 p = Ok zero_cell).
  { rewrite (grid_get_set_ne _ _ _ _ _ Hgr2 Hpt).
    rewrite (grid_get_set_ne _ _ _ _ _ Hgr1 Hps).
    destruct (Hback _ _ Hc) as [c2 Hc2].
    rewrite (grid_get_set_ne _ _ _ _ _ Hgr2 Hpt) in Hc2.
    rewrite (grid_get_set_ne _ _ _ _ _ Hgr1 Hps) in Hc2.
    by rewrite (initial_grid_get _ _ Hc2) in Hc2. }
  destruct (Hfr _ _ Hz) as [ | (_ & _ & Hb)]; [left | right]; congruence.
Qed.

Lemma main_setup_path rs s : main_setup rs = Some (Ok s) → path_inv s.
Proof.
  intros Hs.
  pose proof (main_setup_Some _ _ Hs) as (_ & Hlive & _ & Hexp & _ & Hf).
  split; [split | split].
  - intros e He c Hc. rewrite Hlive in He.
    apply list_elem_of_singleton in He as ->.
    destruct (main_setup_grid _ _ _ _ Hs Hc)
      as [[_ ->] | [[Hp _] | (Hp & _)]]; done.
  - intros e He. rewrite Hexp in He. by apply not_elem_of_nil in He.
  - intros _ p c Hc.
    destruct (main_setup_grid _ _ _ _ Hs Hc)
      as [[_ ->] | [[_ ->] | (_ & _ & [-> | ->])]]; done.
  - rewrite Hf. discriminate.
Qed.

Lemma reachable_path s : reachable s → path_inv s.
Proof.
  induction 1 as [rs s Hs | s s' Hr IH (sort & Hsort & Hstep)].
  - by eapply main_setup_path.
  - apply reachable_inv in Hr.
    by destruct (a_star_with_path _ _ _ Hsort Hr IH Hstep).
Qed.

(** X16.  A call of [a_star] in a state the program reaches leaves the
    barriers as they are: a cell is a barrier after the call exactly when it
    was one before, with all its fields unchanged. *)
Theorem barriers_fixed (s s' : State) :
  reachable s → a_star_step s s' → barriers_same (grid s) (grid s').
Proof.
  intros Hr (sort & Hsort & Hstep).
  by destruct (a_star_with_path _ _ _ Hsort (reachable_inv s Hr)
                 (reachable_path s Hr) Hstep).
Qed.

Lemma barriers_fixed_witness :
  barriers_same (grid pocket_state_1) (grid pocket_state_2).
Proof.
  apply (barriers_fixed pocket_state_1 pocket_state_2).
  - apply (state_after_reachable pocket_rands 1). vm_compute. reflexivity.
  - apply a_star_is_step. vm_compute. reflexivity.
Defined.

(** X17.  In every state the program reaches, no queue entry and no closed
    record lies on a barrier: the grid cell at its coordinate exists and is
    not in state [CELL_BARRIER]. *)
Theorem search_avoids_barriers (s : State) :
  reachable s →
  ∀ e, e ∈ live (open_nodes_queue s) ∨ e ∈ explored s →
       ∃ c, grid_get (grid s) (position e) = Ok c ∧ state c ≠ CELL_BARRIER.
Proof.
  intros Hr e He.
  destruct (reachable_arrays s Hr) as (_ & _ & _ & _ & Hgs & Hqe & Hce).
  destruct (reachable_path s Hr) as ([Hbq Hbc] & _).
  rewrite Forall_forall in Hqe, Hce.
  assert (Hok : entry_ok e) by (destruct He; auto).
  destruct Hok as (Hout & _).
  destruct (grid_get_shape _ _ Hgs Hout) as [c Hc].
  exists c. split; [done | ]. destruct He; [by eapply Hbq | by eapply Hbc].
Qed.

Lemma search_avoids_barriers_witness :
  (start_cell ∈ live (open_nodes_queue pocket_state_2)
   ∨ start_cell ∈ explored pocket_state_2)
  ∧ ∃ c, grid_get (grid pocket_state_2) (position start_cell) = Ok c
         ∧ state c ≠ CELL_BARRIER.
Proof.
  assert (He : start_cell ∈ live (open_nodes_queue pocket_state_2)
               ∨ start_cell ∈ explored pocket_state_2).
  { right. assert (H : head (explored pocket_state_2) = Some start_cell)
      by (vm_compute; reflexivity).
    destruct (explored pocket_state_2) as [ | e l]; [discriminate H | ].
    injection H as ->. constructor. }
  split; [exact He | ].
  apply (search_avoids_barriers pocket_state_2); [ | exact He].
  apply (state_after_reachable pocket_rands 2). vm_compute. reflexivity.
Defined.

(** X18.  In every state the program reaches with the target found, the
    last record of the closed array, the cell whose expansion met the
    target, is next to the target and marked [CELL_PATH]. *)
Theorem found_next_to_target (s : State) :
  reachable s →
  found_target s = true →
  ∃ l current_cell,
    explored s = l ++ [current_cell]
    ∧ adjacent (position current_cell) target_position
    ∧ is_path (grid s) (position current_cell).
Proof.
  intros Hr Hf. destruct (reachable_path s Hr) as (_ & _ & Hfi).
  by destruct (Hfi Hf).
Qed.

Lemma found_next_to_target_witness :
  ∃ l current_cell,
    explored found_state = l ++ [current_cell]
    ∧ adjacent (position current_cell) target_position
    ∧ is_path (grid found_state) (position current_cell).
Proof.
  apply (found_next_to_target found_state).
  - apply (state_after_reachable open_rands 35). vm_compute. reflexivity.
  - vm_compute. reflexivity.
Defined.

(** X19.  In every state the program reaches, a cell marked [CELL_PATH]
    exists only once the target is found, and it is then the cell of a
    closed record, and neither the start nor the target cell. *)
Theorem path_on_explored (s : State) (p : CellPosition_Typedef) :
  reachable s →
  is_path (grid s) p →
  found_target s = true
  ∧ p ∈ closed_positions s
  ∧ p ≠ start_position
  ∧ p ≠ target_position.
Proof.
  intros Hr Hp. destruct (reachable_path s Hr) as (_ & Hno & Hfi).
  destruct (reachable_inv s Hr) as [[Hst Htg] _].
  destruct (found_target s) eqn:Hf.
  - destruct (Hfi eq_refl) as [_ Hon]. split; [done | ].
    split; [by apply Hon | ].
    destruct Hp as (c & Hc & Hpath).
    split; intros ->.
    + destruct Hst as (c0 & Hc0 & Hs0). congruence.
    + destruct Htg as (c0 & Hc0 & Hs0). congruence.
  - destruct Hp as (c & Hc & Hpath). by destruct (Hno eq_refl _ _ Hc).
Qed.

Lemma path_on_explored_witness :
  found_target found_state = true
  ∧ Pos 37 37 ∈ closed_positions found_state
  ∧ Pos 37 37 ≠ start_position
  ∧ Pos 37 37 ≠ target_position.
Proof.
  apply (path_on_explored found_state (Pos 37 37)).
  - apply (state_after_reachable open_rands 35). vm_compute. reflexivity.
  - eexists. split; [vm_compute; reflexivity | reflexivity].
Defined.

(** X20.  Whatever [rand()] returns, [main] enters its loop with the queue
    holding the start cell alone (no accumulated cost, [cost] the heuristic
    of the start), the closed array empty and the target not found; in the
    grid the start and the target cell are set, and every other cell is
    untouched or a barrier. *)
Theorem main_seeds_search (rs : list Z) (s : State) :
  main_setup rs = Some (Ok s) →
  live (open_nodes_queue s) = [start_cell]
  ∧ explored s = []
  ∧ found_target s = false
  ∧ grid_get (grid s) start_position = Ok start_cell
  ∧ grid_get (grid s) target_position = Ok target_cell
  ∧ ∀ p c, grid_get (grid s) p = Ok c →
           p ≠ start_position → p ≠ target_position →
           c = zero_cell ∨ c = set_state zero_cell CELL_BARRIER.
Proof.
  intros Hs.
  pose proof (main_setup_Some _ _ Hs) as (_ & Hlive & _ & Hexp & _ & Hf).
  destruct (reachable_arrays s (reachable_seeded _ _ Hs))
    as (_ & _ & _ & _ & Hgs & _).
  split; [done | ]. split; [done | ]. split; [done | ].
  split; [ | split].
  - destruct (grid_get_shape _ start_position Hgs) as [c Hc]; [done | ].
    destruct (main_setup_grid _ _ _ _ Hs Hc)
      as [[_ ->] | [[Hp _] | (Hp & _)]]; done.
  - destruct (grid_get_shape _ target_position Hgs) as [c Hc]; [done | ].
    destruct (main_setup_grid _ _ _ _ Hs Hc)
      as [[Hp _] | [[_ ->] | (_ & Hp & _)]]; done.
  - intros p c Hc Hps Hpt.
    destruct (main_setup_grid _ _ _ _ Hs Hc)
      as [[Hp _] | [[Hp _] | (_ & _ & Hz)]]; done.
Qed.

Lemma main_seeds_search_witness :
  live (open_nodes_queue seeded_state) = [start_cell]
  ∧ explored seeded_state = []
  ∧ found_target seeded_state = false
  ∧ grid_get (grid seeded_state) start_position = Ok start_cell
  ∧ grid_get (grid seeded_state) target_position = Ok target_cell
  ∧ ∀ p c, grid_get (grid seeded_state) p = Ok c →
           p ≠ start_position → p ≠ target_position →
           c = zero_cell ∨ c = set_state zero_cell CELL_BARRIER.
Proof.
  apply (main_seeds_search pocket_rands seeded_state).
  vm_compute. reflexivity.
Defined.

(** X21.  [create_barriers] changes the grid only by setting the state of
    cells to [CELL_BARRIER], and never the state of a cell in state
    [CELL_START] or [CELL_TARGET]: every cell of the grid it returns is the
    cell it was, or that cell made a barrier. *)
Theorem create_barriers_frame (n_barriers : Z) (rs : list Z) (gr gr' : Grid) :
  create_barriers n_barriers rs gr = Some (Ok gr') →
  ∀ p c, grid_get gr p = Ok c →
         grid_get gr' p = Ok c
         ∨ (state c ≠ CELL_START ∧ state c ≠ CELL_TARGET
            ∧ grid_get gr' p = Ok (set_state c CELL_BARRIER)).
Proof.
  intros H. by destruct (create_barriers_loop_frame _ _ _ _ _ H).
Qed.

Lemma create_barriers_frame_witness :
  grid_get seeded_grid (Pos 5 6) = Ok zero_cell
  ∧ (grid_get two_barriers_grid (Pos 5 6) = Ok zero_cell
     ∨ (state zero_cell ≠ CELL_START ∧ state zero_cell ≠ CELL_TARGET
        ∧ grid_get two_barriers_grid (Pos 5 6)
          = Ok (set_state zero_cell CELL_BARRIER))).
Proof.
  assert (Hc : grid_get seeded_grid (Pos 5 6) = Ok zero_cell)
    by (vm_compute; reflexivity).
  split; [exact Hc | ].
  apply (create_barriers_frame 2 [5; 6; 5; 6] seeded_grid two_barriers_grid);
    [ | exact Hc].
  vm_compute. reflexivity.
Defined.

(** Counting barriers: writing one cell changes the count by that cell. *)
Lemma count_barriers_set gr gr' p c0 c :
  grid_get gr p = Ok c0 →
  grid_set gr p c = Ok gr' →
  (count_barriers gr' + (if state_eqb (state c0) CELL_BARRIER then 1 else 0)
   = count_barriers gr + (if state_eqb (state c) CELL_BARRIER then 1 else 0))%nat.
Proof.
  unfold grid_get, grid_set, count_barriers. intros Hget Hset.
  inv_bind_as Hget row Hrow. inv_bind_as Hset row1 Hrow1.
  assert (row1 = row) as -> by congruence.
  inv_bind_as Hset row' Hrow'.
  apply array_get_Ok in Hrow as [Hx Hrow], Hget as [Hy Hc0].
  apply array_set_Ok in Hrow' as [Hy' ->], Hset as [Hx' ->].
  rewrite (insert_take_drop gr) by lia.
  rewrite (insert_take_drop row) by lia.
  rewrite <- (take_drop_middle gr _ _ Hrow) at 3.
  rewrite <- (take_drop_middle row _ _ Hc0) at 3.
  rewrite !concat_app, !concat_cons, !List.filter_app, !length_app.
  simpl.
  destruct (state_eqb (state c0) CELL_BARRIER),
    (state_eqb (state c) CELL_BARRIER); simpl; lia.
Qed.

Lemma create_barriers_loop_count rs gr n_created n_barriers gr' :
  create_barriers_loop rs gr n_created n_barriers = Some (Ok gr') →
  (count_barriers gr ≤ count_barriers gr')%nat
  ∧ Z.of_nat (count_barriers gr')
    <= Z.of_nat (count_barriers gr) + Z.max 0 (n_barriers - n_created).
Proof.
  remember (length rs) as k eqn:Hk. revert rs Hk gr n_created.
  induction k as [k IH] using lt_wf_ind. intros rs Hk gr n_created H.
  destruct rs as [ | r1 [ | r2 rs]]; simpl in H;
    destruct (Z.ltb_spec n_created n_barriers);
    try discriminate H; try (injection H as <-; split; lia).
  set (p0 := Pos (Z.rem r1 CELL_COUNT) (Z.rem r2 CELL_COUNT)) in *.
  destruct (grid_get gr p0) as [c0 | ] eqn:Hc0; [ | discriminate H].
  destruct (negb (state_eqb (state c0) CELL_START)
            && negb (state_eqb (state c0) CELL_TARGET)).
  - destruct (grid_set_state gr p0 CELL_BARRIER) as [gr1 | ] eqn:Hgr1;
      [ | discriminate H].
    apply (IH (length rs)) in H as [Hlo Hhi]; [ | simpl in Hk; lia | done].
    unfold grid_set_state in Hgr1. rewrite Hc0 in Hgr1. simpl in Hgr1.
    pose proof (count_barriers_set _ _ _ _ _ Hc0 Hgr1) as Hcount.
    simpl in Hcount.
    destruct (state_eqb (state c0) CELL_BARRIER); split; lia.
  - apply (IH (length rs)) in H as [Hlo Hhi]; [ | simpl in Hk; lia | done].
    split; lia.
Qed.

(** X22.  [create_barriers] removes no barrier and adds at most [n_barriers]
    of them; asked for none, it returns the grid as it is, without a
    sample. *)
Theorem create_barriers_count (n_barriers : Z) (rs : list Z) (gr gr' : Grid) :
  create_barriers n_barriers rs gr = Some (Ok gr') →
  (count_barriers gr ≤ count_barriers gr')%nat
  ∧ Z.of_nat (count_barriers gr')
    <= Z.of_nat (count_barriers gr) + Z.max 0 n_barriers
  ∧ (n_barriers <= 0 → gr' = gr).
Proof.
  intros H. unfold create_barriers in H.
  destruct (create_barriers_loop_count _ _ _ _ _ H) as [Hlo Hhi].
  split; [done | ]. split; [by rewrite Z.sub_0_r in Hhi | ].
  intros Hn. destruct rs as [ | r1 [ | r2 rs]]; simpl in H;
    destruct (Z.ltb_spec 0 n_barriers); try lia; by injection H as <-.
Qed.

Lemma create_barriers_count_witness :
  (count_barriers seeded_grid ≤ count_barriers two_barriers_grid)%nat
  ∧ Z.of_nat (count_barriers two_barriers_grid)
    <= Z.of_nat (count_barriers seeded_grid) + Z.max 0 2
  ∧ (2 <= 0 → two_barriers_grid = seeded_grid).
Proof.
  apply (create_barriers_count 2 [5; 6; 5; 6] seeded_grid two_barriers_grid).
  vm_compute. reflexivity.
Defined.

(** ** The only faults are overruns of the queue and the closed array *)

Lemma grid_set_ok gr p c0 c :
  grid_get gr p = Ok c0 → ∃ gr', grid_set gr p c = Ok gr'.
Proof.
  unfold grid_get, grid_set. intros H. inv_bind_as H row Hrow.
  rewrite Hrow. simpl.
  apply array_get_Ok in Hrow as [Hx Hrow], H as [Hy Hc0].
  apply lookup_lt_Some in Hrow, Hc0.
  unfold array_set, zinsert.
  destruct (Z.leb_spec 0 (y p)); [ | lia].
  destruct (Z.ltb_spec (y p) (Z.of_nat (length row))); [ | lia]. simpl.
  destruct (Z.leb_spec 0 (x p)); [ | lia].
  destruct (Z.ltb_spec (x p) (Z.of_nat (length gr))); [ | lia]. simpl.
  by eexists.
Qed.

Lemma grid_set_state_ok gr p c0 st :
  grid_get gr p = Ok c0 → ∃ gr', grid_set_state gr p st = Ok gr'.
Proof.
  intros H. unfold grid_set_state. rewrite H. simpl. by eapply grid_set_ok.
Qed.

Lemma draw_path_loop_progress C (n : nat) gr tmp_cell force_stop marked :
  start_intact gr →
  (∀ p, p ∈ C → admitted gr C p) →
  position tmp_cell ∈ C →
  position tmp_cell ≠ start_position →
  parent_position tmp_cell ∈ C →
  ∃ w, draw_path_loop n gr tmp_cell force_stop marked = Ok w.
Proof.
  revert gr tmp_cell force_stop marked.
  induction n as [ | n IH];
    intros gr tmp_cell force_stop marked Hs HC Hpos Hns Hpar; simpl.
  { by eexists. }
  destruct (HC _ Hpos) as (_ & c & Hc & _).
  destruct (grid_set_state_ok gr _ _ CELL_PATH Hc) as [gr1 Hgr1].
  rewrite Hgr1. simpl.
  assert (Hs1 : start_intact gr1) by (by eapply start_intact_set_state).
  assert (HC1 : ∀ p, p ∈ C → admitted gr1 C p).
  { intros q Hq. eapply admitted_set_state; [done | done | by apply HC]. }
  destruct (HC1 _ Hpar) as (_ & tmp_cell' & Htmp & Hcpos & Hcpar).
  rewrite Htmp. simpl.
  destruct (is_sentinel (parent_position tmp_cell')) eqn:Hsent; [by eexists | ].
  assert (Hne : parent_position tmp_cell ≠ start_position).
  { intros Heq. destruct Hs1 as (c0 & Hc0 & _ & _ & Hsp).
    rewrite Heq in Htmp. assert (c0 = tmp_cell') as -> by congruence.
    apply is_sentinel_true in Hsp. congruence. }
  apply IH; [done | done | by rewrite Hcpos | by rewrite Hcpos | ].
  destruct Hcpar; [contradiction | done].
Qed.

Lemma draw_path_progress current_cell s :
  loop_inv current_cell s →
  position current_cell ≠ start_position →
  ∃ gr', draw_path (grid s) current_cell = Ok gr'.
Proof.
  intros ([Hst Htg Hot Hcl Hqu Hseed] & Hfound & Hcur & Hstart) Hns.
  unfold draw_path, draw_path_walk. cbv zeta.
  destruct (Hcl _ Hcur) as (_ & c & Hc & Hcpos & Hcpar).
  rewrite Hc. cbn [bind].
  assert (Hpar : parent_position c ∈ closed_positions s)
    by (destruct Hcpar; [contradiction | done]).
  rewrite <- Hcpos in Hcur, Hns.
  destruct (draw_path_loop_progress (closed_positions s) (Z.to_nat (1000 - 0))
              (grid s) c 0 [] Hst Hcl Hcur Hns Hpar) as [w Hw].
  rewrite Hw. simpl. by eexists.
Qed.

Lemma visit_neighbour_progress current_cell s neighbour :
  loop_inv current_cell s → arrays_inv s →
  adjacent neighbour (position current_cell) →
  (∃ r, visit_neighbour current_cell s neighbour = Ok r)
  ∨ visit_neighbour current_cell s neighbour = OutOfBounds ARR_QUEUE QUEUE_SIZE.
Proof.
  intros Hloop (Hql & Hqi & Hcl & Hcc & Hgs & _) Hadj.
  unfold visit_neighbour.
  destruct (out_of_grid neighbour) eqn:Hout; [left; by eexists | ].
  destruct (grid_get_shape _ _ Hgs Hout) as [nc Hnc]. rewrite Hnc. simpl.
  destruct (state_eqb (state nc) CELL_TARGET) eqn:Htarget.
  { apply state_eqb_eq in Htarget.
    assert (Hns : position current_cell ≠ start_position).
    { destruct Hloop as ([_ _ Hot _ _ _] & _).
      assert (neighbour = target_position) as -> by (by eapply Hot).
      intros Heq. rewrite Heq in Hadj. destruct Hadj as [Hx _].
      vm_compute in Hx. by apply Hx. }
    destruct (draw_path_progress _ _ Hloop Hns) as [gr' Hgr'].
    rewrite Hgr'. left. by eexists. }
  destruct (state_eqb (state nc) CELL_BARRIER); [left; by eexists | ].
  unfold is_closed_scan. rewrite scan_from_spec by lia. simpl.
  destruct (existsb _ _); [left; by eexists | ].
  unfold in_queue_scan. rewrite scan_from_spec by lia. simpl.
  destruct (negb _ || _); [ | left; by eexists].
  destruct (grid_set_ok (grid s) neighbour nc
              (admitted_cell current_cell nc neighbour
                             (tentative_g current_cell neighbour)) Hnc)
    as [gr' Hgr'].
  rewrite Hgr'. simpl.
  destruct (enqueue_cases (open_nodes_queue s)
              (admitted_cell current_cell nc neighbour
                             (tentative_g current_cell neighbour)) Hql)
    as [[_ Hq] | [[_ Hq] | [_ Hq]]]; [lia | | | ]; rewrite Hq; simpl.
  - left. by eexists.
  - by right.
  - left. by eexists.
Qed.

Lemma for_neighbours_progress current_cell ns s :
  loop_inv current_cell s → arrays_inv s → entry_ok current_cell →
  Forall (λ n, adjacent n (position current_cell)) ns →
  (∃ r, for_neighbours current_cell s ns = Ok r
        ∧ arrays_inv (flow_state r))
  ∨ for_neighbours current_cell s ns = OutOfBounds ARR_QUEUE QUEUE_SIZE.
Proof.
  revert s. induction ns as [ | n ns IH]; intros s Hloop Harr Hcur Hadj; simpl.
  { left. by eexists. }
  apply Forall_cons in Hadj as [Hn Hns].
  destruct (visit_neighbour_progress _ _ _ Hloop Harr Hn) as [[r Hr] | Hr];
    rewrite Hr; simpl; [ | by right].
  pose proof (visit_neighbour_inv _ _ _ _ Hloop Hn Hr) as Hloop'.
  pose proof (visit_neighbour_arrays _ _ _ _ Harr Hcur Hr) as Harr'.
  destruct r as [s' | s']; [by apply IH | left; by eexists].
Qed.

Lemma take_current_progress s :
  search_inv s → arrays_inv s →
  (∃ taken, take_current s = Ok taken)
  ∨ take_current s = OutOfBounds ARR_CLOSED QUEUE_SIZE.
Proof.
  intros Hsi (Hql & Hqi & Hcl & Hcc & Hgs & Hqe & _).
  unfold take_current, pop, is_empty.
  destruct (Z.ltb_spec (idx (open_nodes_queue s)) 0); [left; by eexists | ].
  destruct (lookup_lt_is_Some_2 (cells (open_nodes_queue s))
              (Z.to_nat (idx (open_nodes_queue s)))) as [cur Hcur]; [lia | ].
  assert (array_get ARR_QUEUE (cells (open_nodes_queue s))
                    (idx (open_nodes_queue s)) = Ok cur) as ->
    by (by apply array_get_Ok).
  simpl. unfold array_set, zinsert. rewrite Hcl.
  destruct (Z.leb_spec 0 (closed_nodes_count s)); [ | lia].
  destruct (Z.ltb_spec (closed_nodes_count s) (Z.of_nat (Z.to_nat QUEUE_SIZE)));
    simpl.
  2: { right. f_equal. unfold QUEUE_SIZE, CELL_COUNT in *. lia. }
  assert (Hok : entry_ok cur).
  { rewrite Forall_forall in Hqe. apply Hqe. unfold live.
    apply list_elem_of_lookup. exists (Z.to_nat (idx (open_nodes_queue s))).
    rewrite lookup_take_lt by lia. done. }
  destruct Hok as (Hout & _). rewrite pos_eta.
  destruct (grid_get_shape _ _ Hgs Hout) as [c Hc]. rewrite Hc. simpl.
  destruct (negb (state_eqb (state c) CELL_START)); simpl; [ | left; by eexists].
  destruct (grid_set_state_ok _ _ _ CELL_VISITED Hc) as [gr1 Hgr1].
  rewrite Hgr1. simpl. left. by eexists.
Qed.

(** X23.  In every state the program reaches, a call of [a_star] either
    returns or runs over the end of the queue array or of the closed array,
    at index [QUEUE_SIZE]: it never reads or writes outside the grid, and
    the path walk never follows a parent outside the grid. *)
Theorem a_star_faults_by_overrun_only
    (sort : list Cell_Typedef → list Cell_Typedef) (s : State) :
  reachable s →
  (∃ s', a_star_with sort s = Ok s')
  ∨ a_star_with sort s = OutOfBounds ARR_QUEUE QUEUE_SIZE
  ∨ a_star_with sort s = OutOfBounds ARR_CLOSED QUEUE_SIZE.
Proof.
  intros Hr. pose proof (reachable_arrays s Hr) as Harr.
  destruct (reachable_inv s Hr) as [_ Hri].
  unfold a_star_with.
  destruct (found_target s) eqn:Hf; [left; by eexists | ].
  destruct (Hri eq_refl) as [Hsi _].
  destruct (take_current_progress s Hsi Harr) as [[taken Htaken] | Htaken];
    rewrite Htaken; cbn [bind]; [ | by right; right].
  destruct taken as [[cur s1] | ]; [ | left; by eexists].
  pose proof (take_current_inv _ _ _ Hsi Hf Htaken) as Hloop.
  destruct (take_current_arrays _ _ _ Harr Htaken) as [Harr1 Hcur].
  destruct (for_neighbours_progress cur
              (neighbours (x (position cur)) (y (position cur))) s1
              Hloop Harr1 Hcur) as [(r & Hr' & Harr2) | Hr'].
  { rewrite <- (pos_eta (position cur)) at 1. apply neighbours_adjacent. }
  2: { rewrite Hr'. cbn [bind]. by right; left. }
  rewrite Hr'. cbn [bind]. destruct r as [s2 | s2]; [ | left; by eexists].
  simpl in Harr2. destruct Harr2 as (Hql & Hqi & _).
  unfold qsort_queue.
  destruct (Z.leb_spec 0 (idx (open_nodes_queue s2) + 1)); [ | lia].
  destruct (Z.leb_spec (idx (open_nodes_queue s2) + 1)
              (Z.of_nat (length (cells (open_nodes_queue s2))))); simpl.
  - left. by eexists.
  - unfold QUEUE_SIZE, CELL_COUNT in *. lia.
Qed.

Lemma a_star_faults_by_overrun_only_witness :
  (∃ s', a_star_with qsort_stable pocket_state_1 = Ok s')
  ∨ a_star_with qsort_stable pocket_state_1 = OutOfBounds ARR_QUEUE QUEUE_SIZE
  ∨ a_star_with qsort_stable pocket_state_1 = OutOfBounds ARR_CLOSED QUEUE_SIZE.
Proof.
  apply (a_star_faults_by_overrun_only qsort_stable pocket_state_1).
  apply (state_after_reachable pocket_rands 1). vm_compute. reflexivity.
Defined.

(** ** Drawing the cells *)

Lemma set_cell_colour_in_grid gr renderer cx cy :
  grid_shape gr → 0 <= cx < CELL_COUNT → 0 <= cy < CELL_COUNT →
  ∃ c, grid_get gr (Pos cx cy) = Ok c
       ∧ set_cell_colour gr renderer cx cy = Ok (true, state_colour (state c)).
Proof.
  intros Hgs Hx Hy.
  assert (Hout : out_of_grid (Pos cx cy) = false).
  { unfold out_of_grid. simpl.
    destruct (Z.ltb_spec cx 0), (Z.gtb_spec cx (CELL_COUNT - 1)),
      (Z.ltb_spec cy 0), (Z.gtb_spec cy (CELL_COUNT - 1)); simpl; lia. }
  destruct (grid_get_shape _ _ Hgs Hout) as [c Hc]. exists c.
  split; [done | ]. unfold set_cell_colour.
  unfold out_of_grid in Hout. simpl in Hout. rewrite Hout, Hc. done.
Qed.

Lemma draw_cells_column_paints gr cx ys renderer :
  grid_shape gr → 0 <= cx < CELL_COUNT →
  Forall (λ cy, 0 <= cy < CELL_COUNT) ys →
  ∃ ops renderer',
    draw_cells_column gr cx ys renderer = Ok (ops, renderer')
    ∧ Forall2 (paints gr) (Pos cx <$> ys) ops.
Proof.
  intros Hgs Hx. revert renderer.
  induction ys as [ | cy ys IH]; intros renderer Hys; simpl.
  { exists [], renderer. split; [done | constructor]. }
  apply Forall_cons in Hys as [Hy Hys].
  destruct (set_cell_colour_in_grid gr renderer cx cy Hgs Hx Hy)
    as (c & Hc & Hset).
  rewrite Hset. cbn [bind snd].
  destruct (IH (state_colour (state c)) Hys) as (ops & renderer' & Hrest & Hp).
  rewrite Hrest. cbn [bind fst snd].
  eexists _, _. split; [done | ].
  constructor; [by exists c | done].
Qed.

Lemma draw_cells_columns_paints gr xs renderer :
  grid_shape gr →
  Forall (λ cx, 0 <= cx < CELL_COUNT) xs →
  ∃ ops renderer',
    draw_cells_columns gr xs renderer = Ok (ops, renderer')
    ∧ Forall2 (paints gr)
              (concat ((λ cx, Pos cx <$> seqZ 0 CELL_COUNT) <$> xs)) ops.
Proof.
  intros Hgs. revert renderer.
  induction xs as [ | cx xs IH]; intros renderer Hxs.
  { exists [], renderer. split; [done | constructor]. }
  cbn [draw_cells_columns]. rewrite fmap_cons. cbn [concat].
  apply Forall_cons in Hxs as [Hx Hxs].
  destruct (draw_cells_column_paints gr cx (seqZ 0 CELL_COUNT) renderer Hgs Hx)
    as (col & r1 & Hcol & Hp1).
  { apply Forall_forall. intros cy Hcy. apply elem_of_seqZ in Hcy. lia. }
  rewrite Hcol. cbn [bind fst snd].
  destruct (IH r1 Hxs) as (ops & renderer' & Hrest & Hp).
  rewrite Hrest. cbn [bind fst snd].
  eexists _, _. split; [done | ]. by apply Forall2_app.
Qed.

(** X24.  On a grid of the declared size [draw_cells] fills one square per
    cell, in the order of the coordinates: the square of side [CELL_SIZE]
    at [(x * CELL_SIZE, y * CELL_SIZE)], in the colour of the state of the
    cell [(x, y)].  No call of [set_cell_colour] in it is rejected, although
    the flag is not looked at. *)
Theorem draw_cells_paints (gr : Grid) (renderer : Colour) :
  grid_shape gr →
  ∃ ops renderer',
    draw_cells gr renderer = Ok (ops, renderer')
    ∧ Forall2 (paints gr) all_cells ops
    ∧ Z.of_nat (length ops) = CELL_COUNT * CELL_COUNT.
Proof.
  intros Hgs.
  destruct (draw_cells_columns_paints gr (seqZ 0 CELL_COUNT) renderer Hgs)
    as (ops & renderer' & Hops & Hp).
  { apply Forall_forall. intros cx Hcx. apply elem_of_seqZ in Hcx. lia. }
  exists ops, renderer'. split; [done | ]. split; [done | ].
  apply Forall2_length in Hp. rewrite <- Hp. by vm_compute.
Qed.

Lemma draw_cells_paints_witness :
  ∃ ops renderer',
    draw_cells initial_grid (MkColour 0 0 0 0) = Ok (ops, renderer')
    ∧ Forall2 (paints initial_grid) all_cells ops
    ∧ Z.of_nat (length ops) = CELL_COUNT * CELL_COUNT.
Proof.
  apply (draw_cells_paints initial_grid (MkColour 0 0 0 0)).
  apply initial_grid_shape.
Defined.
